(** * qoc.standard.functions: matrix helpers and the matrix exponential's
    reverse-mode rules

    A shallow embedding of [convenience.py] and [expm.py].  NumPy arrays are
    dtype-polymorphic; the embedding is polymorphic in the scalar type through
    the classes [Num] (what every dtype offers) and [Inexact] (what the
    inexact dtypes add).  Arithmetic is exact: rounding is not modelled,
    except where an integer array is promoted to [float64] ([Int64]). *)

From Stdlib Require Import List Arith ZArith Lia Bool Ring Reals Lra Permutation.
From Stdlib Require PrimFloat Floats Uint63.
Import ListNotations.

Set Implicit Arguments.

(** ** Scalars *)

(** The element-wise operations every NumPy dtype has. *)
Class Num (C : Type) : Type := {
  czero : C;
  cone : C;
  cadd : C -> C -> C;
  cmul : C -> C -> C;
  csub : C -> C -> C;
  copp : C -> C
}.

(** True division, square root and complex conjugation. *)
Class Inexact (C : Type) {N : Num C} : Type := {
  cdiv : C -> C -> C;
  csqrt : C -> C;
  cconj : C -> C
}.

Arguments Inexact C {N}.

(** ** Lists and failure *)

Section Generic.
Context {A B : Type}.

(** [l[n] = x]; out of range Python raises [IndexError], here [l] is
    returned as it is. *)
Fixpoint upd (n : nat) (x : A) (l : list A) : list A :=
  match l, n with
  | [], _ => []
  | _ :: l', O => x :: l'
  | y :: l', S n' => y :: upd n' x l'
  end.

(** An element-wise binary operation on two arrays of one shape.  NumPy
    raises on shapes that do not broadcast; here the longer operand is cut,
    and the theorems assume equal shapes. *)
Fixpoint map2 (f : A -> A -> A) (u v : list A) : list A :=
  match u, v with
  | x :: u', y :: v' => f x y :: map2 f u' v'
  | _, _ => []
  end.

(** A list comprehension whose body can raise. *)
Fixpoint traverse (f : A -> option B) (l : list A) : option (list B) :=
  match l with
  | [] => Some []
  | x :: l' =>
      match f x with
      | None => None
      | Some y =>
          match traverse f l' with
          | None => None
          | Some ys => Some (y :: ys)
          end
      end
  end.

Definition bind (x : option A) (f : A -> option B) : option B :=
  match x with
  | None => None
  | Some a => f a
  end.

(** [functools.reduce(f, l)] without an initial value: a left fold from the
    first item; on an empty sequence it raises [TypeError]. *)
Definition reduce (f : A -> A -> A) (l : list A) : option A :=
  match l with
  | [] => None
  | x :: l' => Some (fold_left f l' x)
  end.

End Generic.

(** ** Arrays *)

(** A 2-D array is the list of its rows together with its column count:
    [shape = (nrows, ncols)].  The column count is kept because it cannot be
    read off the rows of an array with no rows, such as [np.zeros((0, 3))]. *)
Record ndarray (C : Type) : Type := mk_ndarray {
  ncols : nat;
  rows : list (list C)
}.

Arguments mk_ndarray {C} ncols rows.

Section Arrays.
Context {C : Type} `{Num C}.

(** *** 1-D arrays *)

Definition zeros (n : nat) : list C := repeat czero n.
Definition zeros_like (x : list C) : list C := zeros (length x).

Definition np_multiply : list C -> list C -> list C := map2 cmul.
Definition vadd : list C -> list C -> list C := map2 cadd.
Definition vsub : list C -> list C -> list C := map2 csub.
Definition vscale (c : C) (v : list C) : list C := map (cmul c) v.

(** [np.sum] of a 1-D array, accumulated from zero in index order. *)
Definition np_sum (v : list C) : C := fold_left cadd v czero.

(** [np.dot] of two 1-D arrays: the inner product, without conjugation. *)
Definition dot (u v : list C) : C := np_sum (np_multiply u v).

(** *** 2-D arrays *)

Definition nrows (m : ndarray C) : nat := length (rows m).

(** Every row has [ncols] entries. *)
Definition wf (m : ndarray C) : Prop :=
  Forall (fun r => length r = ncols m) (rows m).

(** [m] is a well-formed array of shape [(r, c)]. *)
Definition has_shape (r c : nat) (m : ndarray C) : Prop :=
  nrows m = r /\ ncols m = c /\ wf m.

(** [m[i, :]] *)
Definition row (i : nat) (m : ndarray C) : list C := nth i (rows m) [].
(** [m[i, j]] *)
Definition entry (m : ndarray C) (i j : nat) : C := nth j (row i m) czero.
(** [m[:, j]] *)
Definition col (j : nat) (m : ndarray C) : list C :=
  map (fun r => nth j r czero) (rows m).

(** [m[i, j] = x] *)
Definition set_entry (m : ndarray C) (i j : nat) (x : C) : ndarray C :=
  mk_ndarray (ncols m) (upd i (upd j x (row i m)) (rows m)).

(** [m.T] *)
Definition transpose (m : ndarray C) : ndarray C :=
  mk_ndarray (nrows m) (map (fun j => col j m) (seq 0 (ncols m))).

(** [np.zeros((r, c))] *)
Definition zeros2 (r c : nat) : ndarray C := mk_ndarray c (repeat (zeros c) r).

(** [np.matmul(a, b)] of two 2-D arrays. *)
Definition matmul (a b : ndarray C) : ndarray C :=
  mk_ndarray (ncols b)
    (map (fun r => map (fun j => dot r (col j b)) (seq 0 (ncols b))) (rows a)).

(** [v.dot(m)] of a 1-D array with a 2-D array. *)
Definition vecmat (v : list C) (m : ndarray C) : list C :=
  map (fun j => dot v (col j m)) (seq 0 (ncols m)).

(** [a + b], [a - b] and [-a] on arrays of one shape. *)
Definition madd (a b : ndarray C) : ndarray C :=
  mk_ndarray (ncols a) (map2 vadd (rows a) (rows b)).
Definition msub (a b : ndarray C) : ndarray C :=
  mk_ndarray (ncols a) (map2 vsub (rows a) (rows b)).
Definition mopp (a : ndarray C) : ndarray C :=
  mk_ndarray (ncols a) (map (map copp) (rows a)).

(** [np.diag(v)] of a 1-D array. *)
Definition np_diag (v : list C) : ndarray C :=
  let n := length v in
  mk_ndarray n
    (map (fun i => map (fun j => if i =? j then nth i v czero else czero)
                       (seq 0 n))
         (seq 0 n)).

(** [m.sum(0)]: the sum of each column. *)
Definition sum_axis0 (m : ndarray C) : list C :=
  map (fun j => np_sum (col j m)) (seq 0 (ncols m)).

(** [np.vstack((m, v))] of a 2-D array and a 1-D array. *)
Definition vstack_row (m : ndarray C) (v : list C) : ndarray C :=
  mk_ndarray (ncols m) (rows m ++ [v]).

(** [m[0:1, :]] *)
Definition first_row_slice (m : ndarray C) : ndarray C :=
  mk_ndarray (ncols m) (firstn 1 (rows m)).

(** [np.kron(a, b)] of two 2-D arrays: every entry of [a] is replaced by
    that entry times [b]. *)
Definition kron (a b : ndarray C) : ndarray C :=
  mk_ndarray (ncols a * ncols b)
    (flat_map
       (fun ra => map (fun rb => flat_map (fun x => map (cmul x) rb) ra) (rows b))
       (rows a)).

(** An integer count as a scalar. *)
Fixpoint of_nat (n : nat) : C :=
  match n with
  | O => czero
  | S k => cadd (of_nat k) cone
  end.

(** *** Sequences of arrays *)

(** [np.concatenate(arrs, 0)] of 2-D arrays; an empty sequence and a
    mismatch in the other axis raise [ValueError]. *)
Definition concatenate0 (arrs : list (ndarray C)) : option (ndarray C) :=
  match arrs with
  | [] => None
  | a :: rest =>
      if forallb (fun b => ncols b =? ncols a) rest
      then Some (mk_ndarray (ncols a) (concat (map (@rows C) arrs)))
      else None
  end.

(** [np.concatenate(arrs, 1)] of 2-D arrays. *)
Definition concatenate1 (arrs : list (ndarray C)) : option (ndarray C) :=
  match arrs with
  | [] => None
  | a :: rest =>
      if forallb (fun b => nrows b =? nrows a) rest
      then Some (mk_ndarray (list_sum (map (@ncols C) arrs))
                   (map (fun i => concat (map (row i) arrs))
                        (seq 0 (nrows a))))
      else None
  end.

(** [np.atleast_2d] of a scalar: the array [[x]]. *)
Definition atleast_2d_scalar (x : C) : ndarray C := mk_ndarray 1 [[x]].

(** [np.vstack(v)] of a 1-D array [v]: the sequence handed to [vstack] is
    the array itself, so its items are the scalars of [v]; each becomes a
    1x1 array and they are concatenated along axis 0. *)
Definition vstack (v : list C) : option (ndarray C) :=
  concatenate0 (map atleast_2d_scalar v).

(** A 3-D array: the list of its 2-D items with their common shape. *)
Record ndarray3 : Type := mk_ndarray3 {
  item_shape : nat * nat;
  items : list (ndarray C)
}.

(** [np.stack(arrs)] along a new first axis; an empty list and items of
    different shapes raise [ValueError]. *)
Definition stack (arrs : list (ndarray C)) : option ndarray3 :=
  match arrs with
  | [] => None
  | a :: rest =>
      if forallb (fun b => (nrows b =? nrows a) && (ncols b =? ncols a)) rest
      then Some (mk_ndarray3 (nrows a, ncols a) arrs)
      else None
  end.

(** [np.hstack(a)] of a 3-D array: its items are at least 2-D, so they are
    concatenated along axis 1. *)
Definition hstack (a : ndarray3) : option (ndarray C) :=
  concatenate1 (items a).

End Arrays.

(** ** expm.py *)

Module Expm.
Section Defs.
Context {C : Type} `{Num C}.

(** [scipy.linalg.expm] is a library routine outside the repository; the
    two forward primitives are stated over any such routine.  It raises on
    input that is not square. *)
Variable la_expm : ndarray C -> option (ndarray C).

Definition expm (matrix : ndarray C) : option (ndarray C) :=
  let exp_matrix := la_expm matrix in
  exp_matrix.

Definition expm_fastgrad (matrix : ndarray C)
    (control_matrix_list : list (ndarray C)) : option (ndarray C) :=
  let exp_matrix := la_expm matrix in
  exp_matrix.

(** The closure [_expm_fastgrad_vjp_] applied to [dfinal_dexpm]. *)
Definition _expm_fastgrad_vjp (exp_matrix matrix : ndarray C)
    (control_matrix_list : list (ndarray C))
    (dfinal_dexpm : ndarray C) : ndarray C :=
  let matrix_size := nrows matrix in
  let dexpm_dcontrols :=
    fold_left
      (fun acc control_matrix => madd acc (matmul control_matrix exp_matrix))
      control_matrix_list
      (zeros2 matrix_size matrix_size) in
  let dfinal_dcontrols := matmul dfinal_dexpm dexpm_dcontrols in
  dfinal_dcontrols.

(** The closure [dummy] applied to [g]; it returns the scalar [0.0]. *)
Definition _expm_fastgrad_vjp_dummy {T : Type} (exp_matrix matrix : ndarray C)
    (control_matrix_list : list (ndarray C)) (g : T) : C :=
  czero.

(** The closure [_expm_vjp_] applied to [dfinal_dexpm]: the two nested
    loops write the entries of a zero array one by one. *)
Definition _expm_vjp (exp_matrix matrix : ndarray C)
    (dfinal_dexpm : ndarray C) : ndarray C :=
  let matrix_size := nrows matrix in
  fold_left
    (fun dfinal_dmatrix i =>
       fold_left
         (fun dfinal_dmatrix j =>
            let dexpm_dmij_rowi := row j exp_matrix in
            set_entry dfinal_dmatrix i j
              (np_sum (np_multiply (row i dfinal_dexpm) dexpm_dmij_rowi)))
         (seq 0 matrix_size)
         dfinal_dmatrix)
    (seq 0 matrix_size)
    (zeros2 matrix_size matrix_size).

End Defs.
End Expm.

(** ** convenience.py *)

Module Convenience.
Section Defs.
Context {C : Type} `{Num C}.

Definition commutator (a b : ndarray C) : ndarray C :=
  let commutator_ := msub (matmul a b) (matmul b a) in
  commutator_.

Definition krons (matrices : list (ndarray C)) : option (ndarray C) :=
  let krons_ := reduce kron matrices in
  krons_.

Definition matmuls (matrices : list (ndarray C)) : option (ndarray C) :=
  let matmuls_ := reduce matmul matrices in
  matmuls_.

Definition project (x : list C) (basis : ndarray C) : list C :=
  fold_left
    (fun y i => vadd y (vscale (dot x (row i basis)) (row i basis)))
    (seq 0 (nrows basis))
    (zeros_like x).

(** [matrix_to_column_vector_list]: column [i] is turned into an n x 1
    array by [vstack], and the columns are stacked into a 3-D array. *)
Definition matrix_to_column_vector_list (matrix : ndarray C)
    : option (ndarray3 (C := C)) :=
  bind (traverse (fun i => vstack (col i matrix)) (seq 0 (ncols matrix)))
       stack.

Definition column_vector_list_to_matrix (column_vector_list : ndarray3 (C := C))
    : option (ndarray C) :=
  hstack column_vector_list.

End Defs.

Section InexactDefs.
Context {C : Type} `{Inexact C}.

(** [np.linalg.norm(m, axis=1)]: the Euclidean norm of each row,
    [sqrt(sum((x.conj() * x).real))]; the product of a number with its
    conjugate has no imaginary part. *)
Definition norm_axis1 (m : ndarray C) : list C :=
  map (fun r => csqrt (np_sum (map (fun x => cmul (cconj x) x) r))) (rows m).

(** [v ** 2] *)
Definition square (v : list C) : list C := map (fun x => cmul x x) v.

(** [gram_schmidt] on an input of an inexact dtype: every intermediate
    array then has the dtype of [X].  Integer input, which NumPy promotes on
    the way, is [Int64.gram_schmidt] below. *)
Definition gram_schmidt (X : ndarray C) (row_vecs norm : bool) : ndarray C :=
  let X := if negb row_vecs then transpose X else X in
  let Y := first_row_slice X in
  let Y :=
    fold_left
      (fun Y i =>
         let proj :=
           matmul
             (np_diag (map2 cdiv (vecmat (row i X) (transpose Y))
                                 (square (norm_axis1 Y))))
             Y in
         vstack_row Y (vsub (row i X) (sum_axis0 proj)))
      (seq 1 (nrows X - 1))
      Y in
  let Y :=
    if norm
    then matmul (np_diag (map (cdiv cone) (norm_axis1 Y))) Y
    else Y in
  if row_vecs then Y else transpose Y.

(** [np.conjugate] of a 2-D array. *)
Definition np_conjugate (m : ndarray C) : ndarray C :=
  mk_ndarray (ncols m) (map (map cconj) (rows m)).

(** [conjugate_transpose] of a 2-D array, whose last two axes are its only
    two. *)
Definition conjugate_transpose (matrix : ndarray C) : ndarray C :=
  let conjugate_transpose_ := np_conjugate (transpose matrix) in
  conjugate_transpose_.

(** [conjugate_transpose] of a 3-D array: the last two axes are those of
    each item. *)
Definition conjugate_transpose_stack (matrix : ndarray3 (C := C))
    : ndarray3 (C := C) :=
  mk_ndarray3 (snd (item_shape matrix), fst (item_shape matrix))
    (map conjugate_transpose (items matrix)).

(** [rms_norm] of a 1-D array.  [array * conj(array)] has no imaginary
    part, so [anp.real] changes its dtype only; [size] is the item count. *)
Definition rms_norm (array : list C) : C :=
  let square_norm := np_sum (np_multiply array (map cconj array)) in
  let size := of_nat (length array) in
  let rms_norm_ := csqrt (cdiv square_norm size) in
  rms_norm_.

End InexactDefs.
End Convenience.

(** ** Scalar instances *)

(** Exact integers. *)
#[export] Instance Z_Num : Num Z := {
  czero := 0%Z; cone := 1%Z;
  cadd := Z.add; cmul := Z.mul; csub := Z.sub; copp := Z.opp
}.

(** Gaussian integers [re + im * 1j]: exact complex arithmetic. *)
Module Gauss.
Definition t : Type := (Z * Z)%type.
Definition add (x y : t) : t := (fst x + fst y, snd x + snd y)%Z.
Definition sub (x y : t) : t := (fst x - fst y, snd x - snd y)%Z.
Definition opp (x : t) : t := (- fst x, - snd x)%Z.
Definition mul (x y : t) : t :=
  (fst x * fst y - snd x * snd y, fst x * snd y + snd x * fst y)%Z.
Definition conj (x : t) : t := (fst x, - snd x)%Z.
Definition i : t := (0, 1)%Z.
End Gauss.

#[export] Instance Gauss_Num : Num Gauss.t := {
  czero := (0, 0)%Z; cone := (1, 0)%Z;
  cadd := Gauss.add; cmul := Gauss.mul; csub := Gauss.sub; copp := Gauss.opp
}.

(** Real numbers, standing for [float64] without rounding. *)
#[export] Instance R_Num : Num R := {
  czero := 0%R; cone := 1%R;
  cadd := Rplus; cmul := Rmult; csub := Rminus; copp := Ropp
}.

#[export] Instance R_Inexact : Inexact R := {
  cdiv := Rdiv; csqrt := sqrt; cconj := fun x => x
}.

(** Complex numbers [re + im * 1j] over the reals, standing for
    [complex128] without rounding. *)
Module Cx.
Definition t : Type := (R * R)%type.
Definition add (x y : t) : t := (fst x + fst y, snd x + snd y)%R.
Definition sub (x y : t) : t := (fst x - fst y, snd x - snd y)%R.
Definition opp (x : t) : t := (- fst x, - snd x)%R.
Definition mul (x y : t) : t :=
  (fst x * fst y - snd x * snd y, fst x * snd y + snd x * fst y)%R.
Definition conj (x : t) : t := (fst x, - snd x)%R.
(** The square of the modulus. *)
Definition abs2 (x : t) : R := (fst x * fst x + snd x * snd x)%R.
Definition div (x y : t) : t :=
  ((fst x * fst y + snd x * snd y) / abs2 y,
   (snd x * fst y - fst x * snd y) / abs2 y)%R.
(** The principal square root. *)
Definition sqrt (x : t) : t :=
  let m := R_sqrt.sqrt (abs2 x) in
  (R_sqrt.sqrt ((m + fst x) / 2),
   (if Rle_dec 0 (snd x) then 1 else -1) * R_sqrt.sqrt ((m - fst x) / 2))%R.
Definition i : t := (0, 1)%R.
End Cx.

#[export] Instance Cx_Num : Num Cx.t := {
  czero := (0, 0)%R; cone := (1, 0)%R;
  cadd := Cx.add; cmul := Cx.mul; csub := Cx.sub; copp := Cx.opp
}.

#[export] Instance Cx_Inexact : Inexact Cx.t := {
  cdiv := Cx.div; csqrt := Cx.sqrt; cconj := Cx.conj
}.

(** IEEE 754 binary64, the arithmetic of [float64]; it obeys no ring law and
    serves to run the functions. *)
Module Float64.
Import PrimFloat.

#[export] Instance float64_Num : Num float := {
  czero := 0%float; cone := 1%float;
  cadd := add; cmul := mul; csub := sub; copp := opp
}.

#[export] Instance float64_Inexact : Inexact float := {
  cdiv := div; csqrt := sqrt; cconj := fun x => x
}.

(** The input of the Gram-Schmidt scenario and the identity, as floats. *)
Definition X : ndarray float := mk_ndarray 2 [[1; 0]; [1; 1]]%float.
Definition I2 : ndarray float := mk_ndarray 2 [[1; 0]; [0; 1]]%float.
End Float64.

(** ** Integer input and its promotion to float64 *)

(** An array together with its dtype. *)
Inductive typed_array : Type :=
| Int64Array (a : ndarray Z)
| Float64Array (a : ndarray PrimFloat.float).

Module Int64.
Import Float64.

(** Two's complement wrap-around of [int64] arithmetic. *)
Definition wrap (z : Z) : Z := ((z + 2 ^ 63) mod 2 ^ 64 - 2 ^ 63)%Z.

(** The arithmetic of [int64] arrays; not an instance, [Z_Num] stays the
    arithmetic of exact integers. *)
Definition int64_Num : Num Z := {|
  czero := 0%Z; cone := 1%Z;
  cadd := fun x y => wrap (x + y); cmul := fun x y => wrap (x * y);
  csub := fun x y => wrap (x - y); copp := fun x => wrap (- x)
|}.

(** [astype(float64)] of one [int64] item: the nearest float, ties to
    even. *)
Definition to_float64 (z : Z) : PrimFloat.float :=
  if (z <? 0)%Z
  then
    if (z =? - 2 ^ 63)%Z
    then PrimFloat.opp
           (PrimFloat.mul (PrimFloat.of_uint63 (Uint63.of_Z (2 ^ 62)))
                          (PrimFloat.of_uint63 (Uint63.of_Z 2)))
    else PrimFloat.opp (PrimFloat.of_uint63 (Uint63.of_Z (- z)))
  else PrimFloat.of_uint63 (Uint63.of_Z z).

Definition astype_float64 (m : ndarray Z) : ndarray PrimFloat.float :=
  mk_ndarray (ncols m) (map (map to_float64) (rows m)).


(** [gram_schmidt] on an [int64] input, dtype by dtype.  [Y] starts as an
    [int64] slice.  In the first pass of the loop [X[i,:].dot(Y.T)] is an
    [int64] product; [np.linalg.norm] converts [Y] to float, the true
    division converts the product, [.dot(Y)] and the subtraction convert
    [Y] and [X[i,:]], and [np.vstack] of the [int64] [Y] with the float row
    gives a float array.  From then on [Y] is float and [X[i,:]] is
    converted wherever it is used.  When the loop never runs, [Y] is still
    [int64] at the normalisation, which converts it. *)
Definition gram_schmidt (X : ndarray Z) (row_vecs norm : bool) : typed_array :=
  let X := if negb row_vecs then transpose X else X in
  let Y := first_row_slice X in
  let Y :=
    match seq 1 (nrows X - 1) with
    | [] => Int64Array Y
    | i :: later =>
        let Yf := astype_float64 Y in
        let proj :=
          matmul
            (np_diag
               (map2 cdiv
                  (map to_float64 (@vecmat Z int64_Num (row i X) (transpose Y)))
                  (Convenience.square (Convenience.norm_axis1 Yf))))
            Yf in
        let Y := vstack_row Yf (vsub (map to_float64 (row i X)) (sum_axis0 proj)) in
        Float64Array
          (fold_left
             (fun Y i =>
                let proj :=
                  matmul
                    (np_diag
                       (map2 cdiv
                          (vecmat (map to_float64 (row i X)) (transpose Y))
                          (Convenience.square (Convenience.norm_axis1 Y))))
                    Y in
                vstack_row Y (vsub (map to_float64 (row i X)) (sum_axis0 proj)))
             later
             Y)
    end in
  let Y :=
    if norm
    then
      let Yf := match Y with
                | Int64Array Y => astype_float64 Y
                | Float64Array Y => Y
                end in
      Float64Array
        (matmul (np_diag (map (cdiv cone) (Convenience.norm_axis1 Yf)))
                Yf)
    else Y in
  if row_vecs then Y
  else match Y with
       | Int64Array Y => Int64Array (transpose Y)
       | Float64Array Y => Float64Array (transpose Y)
       end.

End Int64.

(** ** Sample arrays *)

Module Sample.
Definition E : ndarray Z := mk_ndarray 2 [[1; 2]; [3; 4]]%Z.
Definition M : ndarray Z := mk_ndarray 2 [[0; 1]; [1; 0]]%Z.
Definition M' : ndarray Z := mk_ndarray 2 [[9; 9]; [9; 9]]%Z.
Definition G : ndarray Z := mk_ndarray 2 [[5; 6]; [7; 8]]%Z.
Definition H1 : ndarray Z := mk_ndarray 2 [[0; 1]; [1; 0]]%Z.
Definition H2 : ndarray Z := mk_ndarray 2 [[1; 0]; [0; -1]]%Z.

(** A 2 x 3 matrix. *)
Definition wide : ndarray Z := mk_ndarray 3 [[1; 2; 3]; [4; 5; 6]]%Z.
(** [np.zeros((0, 1))]: one column and no row. *)
Definition no_rows : ndarray Z := mk_ndarray 1 [].

(** The rows of the identity in swapped order, and a vector. *)
Definition swap_basis : ndarray Z := mk_ndarray 2 [[0; 1]; [1; 0]]%Z.
Definition x : list Z := [3; 4]%Z.

(** The 1 x 1 complex basis [[1j]] and the vector [1j]. *)
Definition i_basis : ndarray Gauss.t := mk_ndarray 1 [[Gauss.i]].
Definition i_vector : list Gauss.t := [Gauss.i].

(** The input of the Gram-Schmidt scenario, as reals. *)
Definition X : ndarray R := mk_ndarray 2 [[1; 0]; [1; 1]]%R.


(** A stack of two column vectors of shape (2, 1). *)
Definition columns : ndarray3 (C := Z) :=
  mk_ndarray3 (2, 1)
    [mk_ndarray 1 [[1]; [2]]; mk_ndarray 1 [[3]; [4]]]%Z.

(** Complex arrays: a 2 x 2 matrix, a 2 x 1 matrix, a stack and a vector. *)
Definition Zc : ndarray Cx.t :=
  mk_ndarray 2 [[(1, 2); (0, 1)]; [(3, 0); (0, -1)]]%R.
Definition Wc : ndarray Cx.t := mk_ndarray 1 [[(0, 1)]; [(2, -1)]]%R.
Definition stack_c : ndarray3 (C := Cx.t) := mk_ndarray3 (2, 1) [Wc; Wc].
Definition vc : list Cx.t := [(1, 2); (3, -4)]%R.
End Sample.

(** ** Vocabulary of the properties *)

Section Vocabulary.
Context {C : Type} `{Num C}.

(** The finite sum of [f 0], ..., [f (n - 1)]. *)
Definition bigsum (f : nat -> C) (n : nat) : C := np_sum (map f (seq 0 n)).

(** Entry [(i, j)] of the matrix product of [a] and [b], whose inner
    dimension is [n]. *)
Definition prod_entry (n : nat) (a b : ndarray C) (i j : nat) : C :=
  bigsum (fun m => cmul (entry a i m) (entry b m j)) n.

(** The linear combination of the rows [bs] with coefficients [cs], in a
    space of dimension [n]. *)
Fixpoint lincomb (n : nat) (cs : list C) (bs : list (list C)) : list C :=
  match cs, bs with
  | c :: cs', b :: bs' => vadd (vscale c b) (lincomb n cs' bs')
  | _, _ => zeros n
  end.

(** The sum of [c_j * d_j] over two lists. *)
Fixpoint weighted_sum (cs ds : list C) : C :=
  match cs, ds with
  | c :: cs', d :: ds' => cadd (cmul c d) (weighted_sum cs' ds')
  | _, _ => czero
  end.

(** The column vector that [matrix_to_column_vector_list] makes of
    column [j]. *)
Definition column_vector (M : ndarray C) (j : nat) : ndarray C :=
  mk_ndarray 1 (map (fun x => [x]) (col j M)).

(** [x] lies in the span of the rows of [basis]. *)
Definition in_span (x : list C) (basis : ndarray C) : Prop :=
  exists cs, length cs = nrows basis /\ x = lincomb (ncols basis) cs (rows basis).

(** The rows of [basis] are orthonormal for the bilinear form [dot]. *)
Definition dot_orthonormal (basis : ndarray C) : Prop :=
  forall i j, i < nrows basis -> j < nrows basis ->
    dot (row i basis) (row j basis) = if i =? j then cone else czero.

(** The rows of [basis] are orthonormal for the Hermitian inner product
    [sum (conj u_k * v_k)]. *)
Definition hermitian_orthonormal (conj : C -> C) (basis : ndarray C) : Prop :=
  forall i j, i < nrows basis -> j < nrows basis ->
    dot (map conj (row i basis)) (row j basis) = if i =? j then cone else czero.

End Vocabulary.

(** ** Vocabulary of Gram-Schmidt *)

Section GramSchmidtVocabulary.
Context {C : Type} `{Inexact C}.

(** The coefficients that the loop of [gram_schmidt] computes for a row
    [x] against the rows already in [Y]:
    [x.dot(Y.T) / np.linalg.norm(Y, axis=1) ** 2]. *)
Definition projection_coefficients (x : list C) (Y : ndarray C) : list C :=
  map2 cdiv (vecmat x (transpose Y))
            (Convenience.square (Convenience.norm_axis1 Y)).

(** The array [Y] of [gram_schmidt] after its loop has visited the rows
    [1], ..., [n] of [X]. *)
Definition gram_schmidt_loop (X : ndarray C) (n : nat) : ndarray C :=
  fold_left
    (fun Y i =>
       vstack_row Y
         (vsub (row i X)
               (sum_axis0
                  (matmul (np_diag (projection_coefficients (row i X) Y)) Y))))
    (seq 1 n)
    (first_row_slice X).

(** Any two different rows of [Y] have inner product zero. *)
Definition pairwise_orthogonal (Y : ndarray C) : Prop :=
  forall a b, a < nrows Y -> b < nrows Y -> a <> b ->
    dot (row a Y) (row b Y) = czero.

End GramSchmidtVocabulary.

(** * Properties *)

(** ** Lists *)

Section ListFacts.
Context {A : Type}.

Lemma upd_length (n : nat) (x : A) (l : list A) : length (upd n x l) = length l.
Proof.
  revert n; induction l as [|y l IH]; intros [|n]; simpl; auto.
Qed.

Lemma nth_upd (l : list A) (n k : nat) (x d : A) :
  n < length l ->
  nth k (upd n x l) d = if k =? n then x else nth k l d.
Proof.
  revert n k; induction l as [|y l IH]; intros n k Hn; simpl in Hn; [lia|].
  destruct n as [|n]; destruct k as [|k]; simpl; auto.
  apply IH; lia.
Qed.

Lemma upd_out_of_range (l : list A) (n : nat) (x : A) :
  length l <= n -> upd n x l = l.
Proof.
  revert n; induction l as [|y l IH]; intros [|n] Hn; simpl in *; auto; try lia.
  f_equal; apply IH; lia.
Qed.

Lemma map_nth_seq (l : list A) (d : A) :
  map (fun k => nth k l d) (seq 0 (length l)) = l.
Proof.
  induction l as [|y l IH]; simpl; auto.
  f_equal. rewrite <- seq_shift, map_map. exact IH.
Qed.

Lemma map2_length (f : A -> A -> A) (u v : list A) :
  length u = length v -> length (map2 f u v) = length u.
Proof.
  revert v; induction u as [|x u IH]; intros [|y v] E; simpl in *; auto; lia.
Qed.

Lemma map2_nth (f : A -> A -> A) (u v : list A) (d : A) :
  length u = length v ->
  map2 f u v = map (fun k => f (nth k u d) (nth k v d)) (seq 0 (length u)).
Proof.
  revert v; induction u as [|x u IH]; intros [|y v] E; simpl in *; auto; try lia.
  f_equal. rewrite <- seq_shift, map_map. apply IH; lia.
Qed.

Lemma nth_map2 (f : A -> A -> A) (u v : list A) (k : nat) (d : A) :
  k < length u -> k < length v ->
  nth k (map2 f u v) d = f (nth k u d) (nth k v d).
Proof.
  revert v k; induction u as [|x u IH]; intros [|y v] [|k] Hu Hv;
    simpl in *; auto; try lia.
  apply IH; lia.
Qed.

Lemma nth_map_seq {B : Type} (f : nat -> B) (n k : nat) (d : B) :
  k < n -> nth k (map f (seq 0 n)) d = f k.
Proof.
  intros Hk. rewrite (nth_indep _ d (f 0)) by (now rewrite length_map, length_seq).
  rewrite map_nth, seq_nth by exact Hk. reflexivity.
Qed.

Lemma fold_left_map_list {X B D : Type} (g : B -> D -> B) (h : X -> D)
    (l : list X) (y : B) :
  fold_left g (map h l) y = fold_left (fun y a => g y (h a)) l y.
Proof.
  revert y; induction l as [|a l IH]; intros y; simpl; auto.
Qed.

(** A loop over the indices of a list is a loop over its items. *)
Lemma fold_left_seq_nth {B : Type} (g : B -> A -> B) (l : list A) (d : A) (y : B) :
  fold_left (fun y i => g y (nth i l d)) (seq 0 (length l)) y = fold_left g l y.
Proof.
  rewrite <- (fold_left_map_list g (fun i => nth i l d)).
  now rewrite map_nth_seq.
Qed.

Lemma nth_map_lt {B : Type} (f : A -> B) (l : list A) (k : nat) (d : A) (e : B) :
  k < length l -> nth k (map f l) e = f (nth k l d).
Proof.
  intros Hk. rewrite (nth_indep _ e (f d)) by (now rewrite length_map).
  apply map_nth.
Qed.

End ListFacts.

(** ** Arrays *)

Section ArrayFacts.
Context {C : Type} `{Num C}.

Lemma zeros_length (n : nat) : length (zeros n) = n.
Proof. apply repeat_length. Qed.

Lemma nth_zeros (n k : nat) : nth k (zeros n) czero = czero.
Proof.
  unfold zeros. revert k; induction n as [|n IH]; intros [|k]; simpl; auto.
Qed.

(** The inner product of two rows of length [n], as a finite sum. *)
Lemma dot_bigsum (n : nat) (u v : list C) :
  length u = n -> length v = n ->
  dot u v = bigsum (fun m => cmul (nth m u czero) (nth m v czero)) n.
Proof.
  intros Hu Hv. unfold dot, bigsum, np_multiply.
  rewrite (map2_nth _ _ _ czero) by congruence. now rewrite Hu.
Qed.

Lemma row_length (r c : nat) (m : ndarray C) (i : nat) :
  has_shape r c m -> i < r -> length (row i m) = c.
Proof.
  intros (Hr & Hc & Hwf) Hi. unfold row, wf, nrows in *.
  rewrite Forall_forall in Hwf. rewrite <- Hc.
  apply Hwf, nth_In. lia.
Qed.

Lemma col_length (j : nat) (m : ndarray C) : length (col j m) = nrows m.
Proof. unfold col, nrows. apply length_map. Qed.

Lemma nth_col (j k : nat) (m : ndarray C) :
  nth k (col j m) czero = entry m k j.
Proof.
  unfold col, entry, row.
  destruct (Nat.lt_ge_cases k (length (rows m))) as [Hk|Hk].
  - rewrite (nth_indep _ czero (nth j [] czero))
      by (rewrite length_map; exact Hk).
    now rewrite (map_nth (fun r => nth j r czero)).
  - rewrite !nth_overflow; auto.
    + rewrite (nth_overflow (rows m)) by exact Hk. simpl; lia.
    + now rewrite length_map.
Qed.

Lemma zeros2_shape (r c : nat) : has_shape r c (zeros2 r c).
Proof.
  unfold has_shape, nrows, wf, zeros2; simpl.
  rewrite repeat_length. repeat split.
  apply Forall_forall. intros x Hx. apply repeat_spec in Hx. subst.
  apply zeros_length.
Qed.

Lemma entry_zeros2 (r c i j : nat) : entry (zeros2 r c) i j = czero.
Proof.
  unfold entry, row, zeros2; cbn [rows].
  destruct (Nat.lt_ge_cases i r) as [Hi|Hi].
  - rewrite (nth_indep _ [] (zeros c)) by (now rewrite repeat_length).
    rewrite nth_repeat. apply nth_zeros.
  - rewrite (nth_overflow (repeat (zeros c) r)) by (now rewrite repeat_length).
    now destruct j.
Qed.

Lemma set_entry_shape (r c : nat) (m : ndarray C) (i j : nat) (x : C) :
  has_shape r c m -> has_shape r c (set_entry m i j x).
Proof.
  intros (Hr & Hc & Hwf). unfold has_shape, nrows, wf, set_entry in *; simpl.
  rewrite upd_length. repeat split; auto.
  destruct (Nat.lt_ge_cases i (length (rows m))) as [Hi|Hi].
  - rewrite Forall_forall in *. intros s Hs.
    destruct (In_nth _ _ [] Hs) as (k & Hk & <-).
    rewrite upd_length in Hk. rewrite nth_upd by exact Hi.
    destruct (k =? i).
    + rewrite upd_length. apply Hwf, nth_In, Hi.
    + apply Hwf, nth_In, Hk.
  - now rewrite upd_out_of_range.
Qed.

Lemma entry_set_entry (r c : nat) (m : ndarray C) (i j i' j' : nat) (x : C) :
  has_shape r c m -> i < r -> j < c ->
  entry (set_entry m i j x) i' j'
  = if (i' =? i) && (j' =? j) then x else entry m i' j'.
Proof.
  intros Hm Hi Hj. pose proof (row_length Hm Hi) as Hlen.
  destruct Hm as (Hr & Hc & Hwf). unfold nrows in Hr.
  unfold entry, row, set_entry; simpl.
  rewrite nth_upd by lia.
  destruct (Nat.eqb_spec i' i) as [->|Hne]; simpl; auto.
  fold (row i m). rewrite nth_upd by lia. reflexivity.
Qed.

End ArrayFacts.

(** ** The generic backward rule *)

Section ExpmVjp.
Context {C : Type} `{Num C}.

Lemma existsb_eqb_seq (n k : nat) :
  k < n -> existsb (Nat.eqb k) (seq 0 n) = true.
Proof.
  intros Hk. apply existsb_exists. exists k. split.
  - apply in_seq; lia.
  - apply Nat.eqb_refl.
Qed.

(** One pass of the inner loop writes row [i] at the columns visited and
    leaves every other entry alone. *)
Lemma inner_loop_entry (r c : nat) (f : nat -> C) (i : nat) (l : list nat) :
  i < r -> Forall (fun j => j < c) l ->
  forall acc, has_shape r c acc ->
    let res := fold_left (fun a j => set_entry a i j (f j)) l acc in
    has_shape r c res /\
    forall i' j', entry res i' j'
      = if (i' =? i) && existsb (Nat.eqb j') l then f j' else entry acc i' j'.
Proof.
  intros Hi Hl. induction Hl as [|a l Ha Hl IH]; intros acc Hacc; simpl.
  - split; auto. intros i' j'. now rewrite andb_false_r.
  - destruct (IH (set_entry acc i a (f a))) as [Hs He].
    { now apply set_entry_shape. }
    split; auto. intros i' j'. rewrite He.
    rewrite (entry_set_entry i' j' (f a) Hacc Hi Ha).
    destruct (i' =? i); simpl; auto.
    destruct (Nat.eqb_spec j' a) as [->|Hne]; simpl; auto.
    now destruct (existsb (Nat.eqb a) l).
Qed.

(** The two nested loops write [g i j] at every position of the rows
    visited. *)
Lemma outer_loop_entry (n : nat) (g : nat -> nat -> C) (l : list nat) :
  Forall (fun i => i < n) l ->
  forall acc, has_shape n n acc ->
    let res :=
      fold_left
        (fun a i => fold_left (fun a j => set_entry a i j (g i j)) (seq 0 n) a)
        l acc in
    has_shape n n res /\
    forall i' j', j' < n ->
      entry res i' j'
      = if existsb (Nat.eqb i') l then g i' j' else entry acc i' j'.
Proof.
  assert (Hseq : Forall (fun j => j < n) (seq 0 n)).
  { apply Forall_forall. intros j Hj. apply in_seq in Hj. lia. }
  intros Hl. induction Hl as [|a l Ha Hl IH]; intros acc Hacc; simpl.
  - split; auto.
  - destruct (inner_loop_entry (g a) Ha Hseq Hacc) as [Hs He].
    destruct (IH _ Hs) as [Hs' He'].
    split; auto. intros i' j' Hj'. rewrite (He' _ _ Hj'), He.
    rewrite (existsb_eqb_seq Hj'), andb_true_r.
    destruct (Nat.eqb_spec i' a) as [->|Hne]; simpl; auto.
    now destruct (existsb (Nat.eqb a) l).
Qed.

(** C1.  On n x n arrays, the function returned by [_expm_vjp(E, M)] maps a
    cotangent [G] to an array of the shape of [M] whose entry [(i, j)] is
    the inner product of row [i] of [G] with row [j] of [E], that is the sum
    over [m] of [G[i, m] * E[j, m]]. *)
Theorem expm_vjp_rows_dot (n : nat) (E M G : ndarray C) :
  has_shape n n M -> has_shape n n E -> has_shape n n G ->
  has_shape (nrows M) (ncols M) (Expm._expm_vjp E M G) /\
  forall i j, i < n -> j < n ->
    entry (Expm._expm_vjp E M G) i j = dot (row i G) (row j E) /\
    entry (Expm._expm_vjp E M G) i j
    = bigsum (fun m => cmul (entry G i m) (entry E j m)) n.
Proof.
  intros HM HE HG.
  destruct HM as (HMr & HMc & _). rewrite HMc.
  unfold Expm._expm_vjp. rewrite HMr.
  assert (Hseq : Forall (fun i => i < n) (seq 0 n)).
  { apply Forall_forall. intros i Hi. apply in_seq in Hi. lia. }
  destruct (outer_loop_entry
              (fun i j => np_sum (np_multiply (row i G) (row j E)))
              Hseq (zeros2_shape n n)) as [Hs He].
  split; [exact Hs|].
  intros i j Hi Hj.
  assert (Hentry : entry
    (fold_left
       (fun a i0 =>
          fold_left
            (fun a0 j0 =>
               set_entry a0 i0 j0 (np_sum (np_multiply (row i0 G) (row j0 E))))
            (seq 0 n) a)
       (seq 0 n) (zeros2 n n)) i j = dot (row i G) (row j E)).
  { rewrite (He _ _ Hj), (existsb_eqb_seq Hi). reflexivity. }
  split; [exact Hentry|].
  rewrite Hentry.
  rewrite (@dot_bigsum _ _ n) by (eapply row_length; eassumption).
  unfold bigsum, entry. reflexivity.
Qed.

End ExpmVjp.

(** ** Products and sums of arrays *)

Section ProductFacts.
Context {C : Type} `{Num C}.

Lemma bigsum_ext (f g : nat -> C) (n : nat) :
  (forall m, m < n -> f m = g m) -> bigsum f n = bigsum g n.
Proof.
  intros Hfg. unfold bigsum. f_equal. apply map_ext_in.
  intros m Hm. apply in_seq in Hm. apply Hfg. lia.
Qed.

Lemma matmul_shape (r c : nat) (a b : ndarray C) :
  nrows a = r -> ncols b = c -> has_shape r c (matmul a b).
Proof.
  intros Hr Hc. unfold has_shape, nrows, wf, matmul in *; simpl.
  rewrite length_map. repeat split; auto.
  apply Forall_forall. intros s Hs. apply in_map_iff in Hs.
  destruct Hs as (u & <- & _). now rewrite length_map, length_seq.
Qed.

Lemma entry_matmul (a b : ndarray C) (i j : nat) :
  i < nrows a -> j < ncols b ->
  entry (matmul a b) i j = dot (row i a) (col j b).
Proof.
  intros Hi Hj. unfold entry, row, matmul; simpl.
  rewrite (nth_map_lt _ _ [] _ Hi).
  now rewrite nth_map_seq.
Qed.

(** On arrays with matching inner dimension [k], [matmul] computes the
    matrix product entry by entry. *)
Lemma entry_matmul_prod (r k c : nat) (a b : ndarray C) (i j : nat) :
  has_shape r k a -> has_shape k c b -> i < r -> j < c ->
  entry (matmul a b) i j = prod_entry k a b i j.
Proof.
  intros Ha Hb Hi Hj.
  pose proof (row_length Ha Hi) as Hlen.
  destruct Ha as (Har & _ & _). destruct Hb as (Hbr & Hbc & _).
  rewrite entry_matmul by lia.
  rewrite (@dot_bigsum _ _ k) by (auto; now rewrite col_length).
  unfold prod_entry. apply bigsum_ext. intros m _.
  now rewrite nth_col.
Qed.

Lemma madd_shape (r c : nat) (a b : ndarray C) :
  has_shape r c a -> has_shape r c b -> has_shape r c (madd a b).
Proof.
  intros (Har & Hac & Hawf) (Hbr & Hbc & Hbwf).
  unfold has_shape, nrows, wf, madd in *; simpl.
  rewrite map2_length by congruence. repeat split; auto.
  apply Forall_forall. intros s Hs.
  destruct (In_nth _ _ [] Hs) as (k & Hk & <-).
  rewrite map2_length in Hk by congruence.
  rewrite nth_map2 by lia.
  rewrite Forall_forall in Hawf, Hbwf.
  unfold vadd. rewrite map2_length.
  - apply Hawf, nth_In, Hk.
  - rewrite (Hawf (nth k (rows a) [])) by (apply nth_In, Hk).
    rewrite (Hbwf (nth k (rows b) [])) by (apply nth_In; lia).
    congruence.
Qed.

Lemma entry_madd (r c : nat) (a b : ndarray C) (i j : nat) :
  has_shape r c a -> has_shape r c b -> i < r -> j < c ->
  entry (madd a b) i j = cadd (entry a i j) (entry b i j).
Proof.
  intros Ha Hb Hi Hj.
  pose proof (row_length Ha Hi) as Hla. pose proof (row_length Hb Hi) as Hlb.
  destruct Ha as (Har & _ & _). destruct Hb as (Hbr & _ & _).
  unfold entry, row, madd, nrows in *; simpl.
  rewrite nth_map2 by lia.
  unfold vadd. apply nth_map2; lia.
Qed.

(** When conjugation fixes the entries of the basis, as it does for a real
    basis, the two notions of orthonormality agree. *)
Lemma hermitian_orthonormal_real (conj : C -> C) (basis : ndarray C) :
  (forall r, In r (rows basis) -> map conj r = r) ->
  hermitian_orthonormal conj basis <-> dot_orthonormal basis.
Proof.
  intros Hreal.
  assert (Hrow : forall i, i < nrows basis -> map conj (row i basis) = row i basis).
  { intros i Hi. apply Hreal. unfold row. now apply nth_In. }
  split; intros Ho i j Hi Hj; specialize (Ho i j Hi Hj).
  - now rewrite Hrow in Ho.
  - now rewrite Hrow.
Qed.

End ProductFacts.

(** ** The fast-path backward rule *)

Section ExpmFastgrad.
Context {C : Type} `{Num C}.

(** The accumulation loop: every entry of the accumulator collects, in
    list order, that entry of each product [control_matrix @ exp_matrix]. *)
Lemma accumulate_entry (n : nat) (E : ndarray C) (L : list (ndarray C)) :
  has_shape n n E -> Forall (has_shape n n) L ->
  forall acc, has_shape n n acc ->
    let res := fold_left (fun a Hk => madd a (matmul Hk E)) L acc in
    has_shape n n res /\
    forall i j, i < n -> j < n ->
      entry res i j
      = fold_left cadd (map (fun Hk => prod_entry n Hk E i j) L) (entry acc i j).
Proof.
  intros HE HL. induction HL as [|Hk L HHk HL IH]; intros acc Hacc; simpl.
  - split; auto.
  - assert (Hprod : has_shape n n (matmul Hk E)).
    { apply matmul_shape; [apply HHk | apply HE]. }
    destruct (IH (madd acc (matmul Hk E))) as [Hs He].
    { now apply madd_shape. }
    split; auto. intros i j Hi Hj.
    rewrite (He i j Hi Hj).
    rewrite (entry_madd Hacc Hprod Hi Hj).
    now rewrite (entry_matmul_prod HHk HE Hi Hj).
Qed.

(** C2.  On n x n arrays, the function returned by
    [_expm_fastgrad_vjp(E, M, control_matrix_list)] maps a cotangent [G] to
    the matrix product [G . D], where [D] is the sum over the control
    matrices [H_k] of the products [H_k . E]. *)
Theorem expm_fastgrad_vjp_product (n : nat) (E M G : ndarray C)
    (L : list (ndarray C)) :
  has_shape n n M -> has_shape n n E -> has_shape n n G ->
  Forall (has_shape n n) L ->
  exists D : ndarray C,
    has_shape n n D /\
    (forall l j, l < n -> j < n ->
       entry D l j = np_sum (map (fun Hk => prod_entry n Hk E l j) L)) /\
    Expm._expm_fastgrad_vjp E M L G = matmul G D /\
    forall i j, i < n -> j < n ->
      entry (Expm._expm_fastgrad_vjp E M L G) i j = prod_entry n G D i j.
Proof.
  intros HM HE HG HL.
  destruct HM as (HMr & _ & _).
  unfold Expm._expm_fastgrad_vjp. rewrite HMr.
  destruct (accumulate_entry HE HL (zeros2_shape n n)) as [Hs He].
  exists (fold_left (fun a Hk => madd a (matmul Hk E)) L (zeros2 n n)).
  split; [exact Hs|]. split; [|split].
  - intros l j Hl Hj. rewrite (He l j Hl Hj), entry_zeros2. reflexivity.
  - reflexivity.
  - intros i j Hi Hj. apply (entry_matmul_prod HG Hs Hi Hj).
Qed.

(** C9.  The fast-path backward map reads the exponentiated matrix only
    through its shape: two matrices of one shape give the same map. *)
Theorem expm_fastgrad_vjp_shape_only (E M1 M2 G : ndarray C)
    (L : list (ndarray C)) :
  nrows M1 = nrows M2 -> ncols M1 = ncols M2 ->
  Expm._expm_fastgrad_vjp E M1 L G = Expm._expm_fastgrad_vjp E M2 L G.
Proof.
  intros Hr _. unfold Expm._expm_fastgrad_vjp. now rewrite Hr.
Qed.

(** C3.  The forward computation of [expm_fastgrad] returns what [expm]
    returns on the same matrix, whatever the control matrix list. *)
Theorem expm_fastgrad_forward_eq_expm
    (la_expm : ndarray C -> option (ndarray C))
    (M : ndarray C) (L : list (ndarray C)) :
  Expm.expm_fastgrad la_expm M L = Expm.expm la_expm M /\
  forall L' : list (ndarray C),
    Expm.expm_fastgrad la_expm M L = Expm.expm_fastgrad la_expm M L'.
Proof.
  split; reflexivity.
Qed.

(** C4.  The gradient returned for the control-matrix-list input of
    [expm_fastgrad] is zero, whatever the cotangent. *)
Theorem expm_fastgrad_vjp_dummy_zero (T : Type) (E M : ndarray C)
    (L : list (ndarray C)) (g : T) :
  Expm._expm_fastgrad_vjp_dummy E M L g = czero.
Proof.
  reflexivity.
Qed.

End ExpmFastgrad.

(** ** Properties that rest on the laws of arithmetic *)

Section RingLaws.
Context {C : Type} `{Num C}.
Hypothesis Cring : ring_theory czero cone cadd cmul csub copp eq.
Add Ring Cr : Cring.

(** *** Sums and inner products *)

Lemma fold_cadd_acc (l : list C) (a : C) :
  fold_left cadd l a = cadd a (np_sum l).
Proof.
  unfold np_sum. revert a; induction l as [|x l IH]; intros a; simpl.
  - ring.
  - rewrite (IH (cadd a x)), (IH (cadd czero x)). ring.
Qed.

Lemma np_sum_cons (x : C) (l : list C) : np_sum (x :: l) = cadd x (np_sum l).
Proof.
  unfold np_sum at 1; simpl. rewrite fold_cadd_acc. ring.
Qed.

Lemma dot_cons (x y : C) (u v : list C) :
  dot (x :: u) (y :: v) = cadd (cmul x y) (dot u v).
Proof. unfold dot, np_multiply; simpl. apply np_sum_cons. Qed.

Lemma dot_vadd_l (u v b : list C) :
  length u = length b -> length v = length b ->
  dot (vadd u v) b = cadd (dot u b) (dot v b).
Proof.
  revert v b; induction u as [|x u IH]; intros [|y v] [|z b] Hu Hv;
    simpl in *; try lia.
  - unfold dot, np_sum; simpl. ring.
  - unfold vadd; simpl. rewrite !dot_cons. fold (vadd u v).
    rewrite IH by lia. ring.
Qed.

Lemma dot_vscale_l (c : C) (u b : list C) :
  dot (vscale c u) b = cmul c (dot u b).
Proof.
  revert b; induction u as [|x u IH]; intros [|z b]; simpl;
    try (unfold dot, np_sum; simpl; ring).
  rewrite !dot_cons, IH. ring.
Qed.

Lemma dot_zeros_l (n : nat) (b : list C) : dot (zeros n) b = czero.
Proof.
  revert b; induction n as [|n IH]; intros [|z b]; try reflexivity.
  unfold zeros; simpl. rewrite dot_cons. fold (zeros n). rewrite IH. ring.
Qed.

(** *** Vectors *)

Lemma vadd_assoc (u v w : list C) : vadd (vadd u v) w = vadd u (vadd v w).
Proof.
  unfold vadd.
  revert v w; induction u as [|x u IH]; intros [|y v] [|z w]; simpl; auto.
  f_equal; [ring | apply IH].
Qed.

Lemma vadd_zeros_r (v : list C) : vadd v (zeros (length v)) = v.
Proof.
  unfold vadd, zeros. induction v as [|x v IH]; simpl; auto.
  f_equal; [ring | exact IH].
Qed.

Lemma vadd_zeros_l (v : list C) : vadd (zeros (length v)) v = v.
Proof.
  unfold vadd, zeros. induction v as [|x v IH]; simpl; auto.
  f_equal; [ring | exact IH].
Qed.

Lemma vadd_length (n : nat) (u v : list C) :
  length u = n -> length v = n -> length (vadd u v) = n.
Proof.
  intros Hu Hv. unfold vadd. rewrite map2_length; congruence.
Qed.

Lemma vscale_length (c : C) (v : list C) : length (vscale c v) = length v.
Proof. apply length_map. Qed.

Lemma lincomb_length (n : nat) (cs : list C) (bs : list (list C)) :
  Forall (fun b => length b = n) bs -> length (lincomb n cs bs) = n.
Proof.
  intros Hbs. revert cs; induction Hbs as [|b bs Hb Hbs IH]; intros [|c cs];
    simpl; try apply zeros_length.
  apply vadd_length; [now rewrite vscale_length | apply IH].
Qed.

(** *** project *)

(** The inner product is linear in its first argument. *)
Lemma dot_lincomb (n : nat) (cs : list C) (bs : list (list C)) (b : list C) :
  Forall (fun b' => length b' = n) bs -> length b = n ->
  dot (lincomb n cs bs) b = weighted_sum cs (map (fun b' => dot b' b) bs).
Proof.
  intros Hbs Hb. revert cs; induction Hbs as [|b' bs Hb' Hbs IH]; intros [|c cs];
    simpl; try apply dot_zeros_l.
  rewrite dot_vadd_l.
  - now rewrite dot_vscale_l, IH.
  - rewrite vscale_length. congruence.
  - rewrite lincomb_length by exact Hbs. congruence.
Qed.

(** Against the indicator of position [i], a weighted sum picks [c_i]. *)
Lemma weighted_sum_delta (cs : list C) (s i : nat) :
  weighted_sum cs
    (map (fun j => if j =? i then cone else czero) (seq s (length cs)))
  = if (s <=? i) && (i <? s + length cs) then nth (i - s) cs czero else czero.
Proof.
  revert s; induction cs as [|c cs IH]; intros s; simpl.
  - destruct (s <=? i); simpl; auto.
    now destruct (i <? s + 0); destruct (i - s).
  - rewrite IH.
    destruct (Nat.eqb_spec s i) as [->|Hne].
    + rewrite Nat.leb_refl, Nat.sub_diag.
      replace (S i <=? i) with false by (symmetry; apply Nat.leb_gt; lia).
      replace (i <? i + S (length cs)) with true
        by (symmetry; apply Nat.ltb_lt; lia).
      simpl. ring.
    + destruct (Nat.leb_spec s i) as [Hle|Hgt].
      * replace (S s <=? i) with true by (symmetry; apply Nat.leb_le; lia).
        replace (i <? S s + length cs) with (i <? s + S (length cs))
          by (f_equal; lia).
        simpl. destruct (i <? s + S (length cs)).
        -- replace (i - s) with (S (i - S s)) by lia. ring.
        -- ring.
      * replace (S s <=? i) with false by (symmetry; apply Nat.leb_gt; lia).
        simpl. ring.
Qed.

(** The loop of [project] adds up the rows of the basis, each weighted by
    its inner product with [x]. *)
Lemma project_lincomb (x : list C) (basis : ndarray C) :
  wf basis -> length x = ncols basis ->
  Convenience.project x basis
  = lincomb (ncols basis) (map (dot x) (rows basis)) (rows basis).
Proof.
  intros Hwf Hx. unfold Convenience.project, zeros_like, nrows, row.
  rewrite Hx. set (n := ncols basis) in *.
  transitivity
    (fold_left (fun y b => vadd y (vscale (dot x b) b)) (rows basis) (zeros n)).
  { apply (fold_left_seq_nth
             (fun y b => vadd y (vscale (dot x b) b)) (rows basis) []). }
  assert (Hgen : forall y, length y = n ->
    fold_left (fun y b => vadd y (vscale (dot x b) b)) (rows basis) y
    = vadd y (lincomb n (map (dot x) (rows basis)) (rows basis))).
  { unfold wf in Hwf. fold n in Hwf.
    induction Hwf as [|b bs Hb Hbs IH]; intros y Hy; simpl.
    - rewrite <- Hy. symmetry. apply vadd_zeros_r.
    - rewrite IH, vadd_assoc; auto.
      apply vadd_length; auto. now rewrite vscale_length. }
  rewrite Hgen by apply zeros_length. subst n.
  rewrite <- (lincomb_length (map (dot x) (rows basis)) Hwf) at 1.
  apply vadd_zeros_l.
Qed.

(** C5, as amended.  When the rows of [basis] are orthonormal for the
    unconjugated inner product that [project] uses, [project(x, basis)]
    returns every [x] of their span. *)
Theorem project_reconstructs (x : list C) (basis : ndarray C) :
  wf basis -> dot_orthonormal basis -> in_span x basis ->
  Convenience.project x basis = x.
Proof.
  intros Hwf Horth (cs & Hcs & Hx).
  assert (Hlen : length x = ncols basis).
  { rewrite Hx. now apply lincomb_length. }
  rewrite project_lincomb by assumption.
  rewrite Hx at 2. f_equal.
  rewrite <- (map_nth_seq cs czero).
  rewrite <- (map_nth_seq (rows basis) []) at 1.
  rewrite map_map, Hcs. apply map_ext_in.
  intros i Hi. apply in_seq in Hi. fold (row i basis).
  assert (Hi' : i < nrows basis) by lia.
  rewrite Hx, dot_lincomb; auto.
  - rewrite <- (map_nth_seq (rows basis) []) at 1.
    rewrite map_map.
    rewrite (map_ext_in _ (fun j => if j =? i then cone else czero)).
    + fold (nrows basis). rewrite <- Hcs, weighted_sum_delta.
      simpl. rewrite Nat.sub_0_r.
      replace (i <? length cs) with true
        by (symmetry; apply Nat.ltb_lt; lia).
      reflexivity.
    + intros j Hj. apply in_seq in Hj. fold (row j basis).
      apply Horth; unfold nrows in *; lia.
  - unfold wf in Hwf. rewrite Forall_forall in Hwf.
    apply Hwf, nth_In. exact Hi'.
Qed.

(** *** commutator *)

Lemma entry_msub (r c : nat) (a b : ndarray C) (i j : nat) :
  has_shape r c a -> has_shape r c b -> i < r -> j < c ->
  entry (msub a b) i j = csub (entry a i j) (entry b i j).
Proof.
  intros Ha Hb Hi Hj.
  pose proof (row_length Ha Hi) as Hla. pose proof (row_length Hb Hi) as Hlb.
  destruct Ha as (Har & _ & _). destruct Hb as (Hbr & _ & _).
  unfold entry, row, msub, nrows in *; simpl.
  rewrite nth_map2 by lia.
  unfold vsub. apply nth_map2; lia.
Qed.

Lemma vsub_swap (u v : list C) : vsub u v = map copp (vsub v u).
Proof.
  unfold vsub. revert v; induction u as [|x u IH]; intros [|y v]; simpl; auto.
  f_equal; [ring | apply IH].
Qed.

Lemma rows_sub_swap (p q : list (list C)) :
  map2 vsub p q = map (map copp) (map2 vsub q p).
Proof.
  revert q; induction p as [|u p IH]; intros [|v q]; simpl; auto.
  f_equal; [apply vsub_swap | apply IH].
Qed.

(** C8.  On square arrays of one shape, [commutator(A, B)] is the
    difference of the two matrix products, [A @ B - B @ A], and it is
    antisymmetric: [commutator(A, B) = - commutator(B, A)]. *)
Theorem commutator_antisymmetric (n : nat) (A B : ndarray C) :
  has_shape n n A -> has_shape n n B ->
  Convenience.commutator A B = msub (matmul A B) (matmul B A) /\
  (forall i j, i < n -> j < n ->
     entry (Convenience.commutator A B) i j
     = csub (prod_entry n A B i j) (prod_entry n B A i j)) /\
  Convenience.commutator A B = mopp (Convenience.commutator B A).
Proof.
  intros HA HB. split; [reflexivity|]. split.
  - intros i j Hi Hj. unfold Convenience.commutator.
    assert (HAB : has_shape n n (matmul A B))
      by (apply matmul_shape; [apply HA | apply HB]).
    assert (HBA : has_shape n n (matmul B A))
      by (apply matmul_shape; [apply HB | apply HA]).
    rewrite (entry_msub HAB HBA Hi Hj).
    now rewrite (entry_matmul_prod HA HB Hi Hj), (entry_matmul_prod HB HA Hi Hj).
  - unfold Convenience.commutator, msub, mopp; simpl.
    destruct HA as (_ & HAc & _). destruct HB as (_ & HBc & _).
    f_equal; [congruence | apply rows_sub_swap].
Qed.

End RingLaws.

(** ** Columns of a matrix *)

Section Isomorphisms.
Context {C : Type} `{Num C}.

Lemma traverse_some {A B : Type} (f : A -> option B) (g : A -> B) (l : list A) :
  (forall a, In a l -> f a = Some (g a)) -> traverse f l = Some (map g l).
Proof.
  induction l as [|a l IH]; intros Hf; simpl; auto.
  rewrite (Hf a) by now left.
  rewrite IH; auto. intros b Hb. apply Hf. now right.
Qed.

(** [vstack] turns a 1-D array with at least one item into a column. *)
Lemma vstack_some (v : list C) :
  v <> [] -> vstack v = Some (mk_ndarray 1 (map (fun x => [x]) v)).
Proof.
  destruct v as [|x v]; [congruence|]. intros _.
  unfold vstack; simpl.
  assert (Hall : forallb (fun b : ndarray C => ncols b =? 1)
                   (map atleast_2d_scalar v) = true).
  { apply forallb_forall. intros b Hb. apply in_map_iff in Hb.
    now destruct Hb as (y & <- & _). }
  rewrite Hall. do 3 f_equal.
  induction v as [|y v IH]; simpl; auto. now rewrite IH.
Qed.

Lemma column_vector_row (M : ndarray C) (i j : nat) :
  i < nrows M -> row i (column_vector M j) = [entry M i j].
Proof.
  intros Hi. unfold row, column_vector; simpl.
  rewrite (nth_map_lt _ _ czero) by (now rewrite col_length).
  now rewrite nth_col.
Qed.

Lemma concat_singletons {A : Type} (f : nat -> A) (l : list nat) :
  concat (map (fun j => [f j]) l) = map f l.
Proof.
  induction l as [|a l IH]; simpl; auto. now rewrite IH.
Qed.

Lemma list_sum_ones {A : Type} (l : list A) :
  list_sum (map (fun _ => 1) l) = length l.
Proof.
  induction l as [|a l IH]; simpl; auto.
Qed.

(** C6, as amended.  A matrix with at least one row and at least one
    column is given back by [column_vector_list_to_matrix] from what
    [matrix_to_column_vector_list] makes of it. *)
Theorem column_vector_round_trip (M : ndarray C) :
  wf M -> 0 < nrows M -> 0 < ncols M ->
  bind (Convenience.matrix_to_column_vector_list M)
       Convenience.column_vector_list_to_matrix
  = Some M.
Proof.
  intros Hwf Hr Hc.
  unfold Convenience.matrix_to_column_vector_list.
  rewrite (traverse_some _ (column_vector M)).
  2:{ intros j _. apply vstack_some. intros Hnil.
      apply (f_equal (@length C)) in Hnil. rewrite col_length in Hnil.
      simpl in Hnil. lia. }
  destruct M as [nc rs]. unfold nrows in Hr. simpl in Hr, Hc. cbn [ncols].
  destruct nc as [|nc]; [lia|].
  set (M := mk_ndarray (S nc) rs) in *.
  cbn [seq map bind stack].
  assert (Hshape : forall b, In b (map (column_vector M) (seq 1 nc)) ->
            nrows b = length rs /\ ncols b = 1).
  { intros b Hb. apply in_map_iff in Hb. destruct Hb as (j & <- & _).
    unfold column_vector, nrows; simpl.
    now rewrite length_map, col_length. }
  assert (H0 : nrows (column_vector M 0) = length rs).
  { unfold column_vector, nrows; simpl.
    now rewrite length_map, col_length. }
  assert (Hstack : forallb
            (fun b => (nrows b =? nrows (column_vector M 0))
                      && (ncols b =? ncols (column_vector M 0)))
            (map (column_vector M) (seq 1 nc)) = true).
  { apply forallb_forall. intros b Hb. destruct (Hshape b Hb) as [-> ->].
    now rewrite H0, Nat.eqb_refl. }
  rewrite Hstack. cbn [bind].
  unfold Convenience.column_vector_list_to_matrix, hstack, concatenate1.
  cbn [items].
  assert (Hcat : forallb (fun b => nrows b =? nrows (column_vector M 0))
                   (map (column_vector M) (seq 1 nc)) = true).
  { apply forallb_forall. intros b Hb. destruct (Hshape b Hb) as [-> _].
    now rewrite H0, Nat.eqb_refl. }
  rewrite Hcat, H0. unfold M at 5. f_equal. f_equal.
  - change (column_vector M 0 :: map (column_vector M) (seq 1 nc))
      with (map (column_vector M) (seq 0 (S nc))).
    rewrite map_map. cbn [column_vector ncols].
    now rewrite list_sum_ones, length_seq.
  - rewrite <- (map_nth_seq rs []) at 2.
    apply map_ext_in. intros i Hi. apply in_seq in Hi.
    change (column_vector M 0 :: map (column_vector M) (seq 1 nc))
      with (map (column_vector M) (seq 0 (S nc))).
    rewrite map_map.
    rewrite (map_ext_in _ (fun j => [entry M i j])).
    + rewrite concat_singletons.
      assert (Hlen : length (nth i rs []) = S nc).
      { unfold wf in Hwf. rewrite Forall_forall in Hwf.
        apply (Hwf (nth i rs [])), nth_In. simpl. lia. }
      rewrite <- Hlen. apply (map_nth_seq (nth i rs []) czero).
    + intros j _. apply column_vector_row. unfold nrows; simpl. lia.
Qed.

End Isomorphisms.

(** ** Gram-Schmidt *)

Section GramSchmidt.
Context {C : Type} `{Inexact C}.

(** A loop that only appends rows keeps the first row. *)
Lemma append_loop_first_row (f : ndarray C -> nat -> list C) (l : list nat) :
  forall Y, 0 < nrows Y ->
    row 0 (fold_left (fun Y i => vstack_row Y (f Y i)) l Y) = row 0 Y.
Proof.
  induction l as [|i l IH]; intros Y HY; simpl; auto.
  rewrite IH.
  - unfold row, vstack_row, nrows in *; simpl.
    destruct (rows Y); simpl in *; [lia | reflexivity].
  - unfold vstack_row, nrows in *; simpl. rewrite length_app. lia.
Qed.

(** On an array of one inexact dtype, with [row_vecs=True] and
    [norm=False], the first row of the result of [gram_schmidt] is the first
    row of its input, whenever the input has a row. *)
Theorem gram_schmidt_first_row (X : ndarray C) :
  0 < nrows X ->
  row 0 (Convenience.gram_schmidt X true false) = row 0 X.
Proof.
  intros HX. unfold Convenience.gram_schmidt. cbn [negb].
  rewrite (append_loop_first_row
             (fun Y i =>
                vsub (row i X)
                  (sum_axis0
                     (matmul
                        (np_diag
                           (map2 cdiv (vecmat (row i X) (transpose Y))
                              (Convenience.square (Convenience.norm_axis1 Y))))
                        Y)))).
  - unfold row, first_row_slice, nrows in *; simpl.
    destruct (rows X); simpl in *; [lia | reflexivity].
  - unfold first_row_slice, nrows in *; simpl.
    destruct (rows X); simpl in *; lia.
Qed.

End GramSchmidt.

(** ** The Gram-Schmidt scenario, in real arithmetic *)

Section GramSchmidtScenario.
Open Scope R_scope.

(** Normalisation is a last step on top of the unnormalised result. *)
Lemma gram_schmidt_norm_step {C : Type} `{Inexact C} (X : ndarray C) :
  Convenience.gram_schmidt X true true
  = matmul
      (np_diag (map (cdiv cone)
                    (Convenience.norm_axis1 (Convenience.gram_schmidt X true false))))
      (Convenience.gram_schmidt X true false).
Proof. reflexivity. Qed.

Lemma sqrt_unit_first : sqrt (0 + 1 * 1 + 0 * 0) = 1.
Proof.
  replace (0 + 1 * 1 + 0 * 0) with 1 by ring. apply sqrt_1.
Qed.

Lemma sqrt_unit_second : sqrt (0 + 0 * 0 + 1 * 1) = 1.
Proof.
  replace (0 + 0 * 0 + 1 * 1) with 1 by ring. apply sqrt_1.
Qed.

Lemma gram_schmidt_scenario_raw :
  Convenience.gram_schmidt (mk_ndarray 2 [[1; 0]; [1; 1]]) true false
  = mk_ndarray 2 [[1; 0]; [0; 1]].
Proof.
  unfold Convenience.gram_schmidt.
  cbn -[sqrt Rplus Rmult Rminus Rdiv IZR].
  rewrite sqrt_unit_first.
  unfold vstack_row, first_row_slice; cbn [firstn rows ncols app].
  repeat f_equal; field.
Qed.

Lemma gram_schmidt_scenario_value :
  Convenience.gram_schmidt (mk_ndarray 2 [[1; 0]; [1; 1]]) true true
  = mk_ndarray 2 [[1; 0]; [0; 1]].
Proof.
  rewrite gram_schmidt_norm_step, gram_schmidt_scenario_raw.
  unfold matmul, np_diag.
  cbn -[sqrt Rplus Rmult Rminus Rdiv IZR].
  rewrite sqrt_unit_first, sqrt_unit_second.
  repeat f_equal; field.
Qed.

(** C7.  For [X = [[1, 0], [1, 1]]] with [row_vecs=True] and [norm=True],
    the two rows of the result are orthogonal to each other, each has
    Euclidean norm one, and the first is a positive multiple of [[1, 0]]. *)
Theorem gram_schmidt_scenario :
  let Y := Convenience.gram_schmidt Sample.X true true in
  has_shape 2 2 Y /\
  dot (row 0 Y) (row 1 Y) = 0 /\
  dot (row 1 Y) (row 0 Y) = 0 /\
  Convenience.norm_axis1 Y = [1; 1] /\
  exists c : R, 0 < c /\ row 0 Y = vscale c [1; 0].
Proof.
  cbv zeta. unfold Sample.X. rewrite gram_schmidt_scenario_value.
  split; [|split; [|split; [|split]]].
  - repeat split. repeat constructor.
  - cbn -[Rplus Rmult IZR]. ring.
  - cbn -[Rplus Rmult IZR]. ring.
  - cbn -[sqrt Rplus Rmult IZR].
    now rewrite sqrt_unit_first, sqrt_unit_second.
  - exists 1. split; [lra|].
    cbn -[Rmult IZR]. repeat f_equal; ring.
Qed.

End GramSchmidtScenario.

(** ** The functions on sample arrays *)

Ltac shape :=
  unfold has_shape, nrows, wf; simpl; repeat split; repeat constructor.

Section Samples.
Import Float64.
Import Sample.

(** Under IEEE 754 arithmetic the scenario gives the same rows: every
    operation on these values is exact. *)
Example gram_schmidt_scenario_float64 :
  Convenience.gram_schmidt Float64.X true true = Float64.I2.
Proof. vm_compute. reflexivity. Qed.

Example expm_vjp_sample :
  Expm._expm_vjp E M G = mk_ndarray 2 [[17; 39]; [23; 53]]%Z.
Proof. reflexivity. Qed.

Example expm_fastgrad_vjp_sample :
  Expm._expm_fastgrad_vjp E M [H1; H2] G = mk_ndarray 2 [[8; 18]; [12; 26]]%Z.
Proof. reflexivity. Qed.

Lemma expm_vjp_rows_dot_witness :
  has_shape (nrows M) (ncols M) (Expm._expm_vjp E M G) /\
  forall i j, i < 2 -> j < 2 ->
    entry (Expm._expm_vjp E M G) i j = dot (row i G) (row j E) /\
    entry (Expm._expm_vjp E M G) i j
    = bigsum (fun m => cmul (entry G i m) (entry E j m)) 2.
Proof.
  apply (@expm_vjp_rows_dot Z _ 2 E M G); shape.
Defined.

Lemma expm_fastgrad_vjp_product_witness :
  exists D : ndarray Z,
    has_shape 2 2 D /\
    (forall l j, l < 2 -> j < 2 ->
       entry D l j = np_sum (map (fun Hk => prod_entry 2 Hk E l j) [H1; H2])) /\
    Expm._expm_fastgrad_vjp E M [H1; H2] G = matmul G D /\
    forall i j, i < 2 -> j < 2 ->
      entry (Expm._expm_fastgrad_vjp E M [H1; H2] G) i j = prod_entry 2 G D i j.
Proof.
  apply (@expm_fastgrad_vjp_product Z _ 2 E M G [H1; H2]); shape.
Defined.

Lemma expm_fastgrad_vjp_shape_only_witness :
  Expm._expm_fastgrad_vjp E M [H1; H2] G
  = Expm._expm_fastgrad_vjp E M' [H1; H2] G.
Proof.
  apply (@expm_fastgrad_vjp_shape_only Z _ E M M' G [H1; H2]); reflexivity.
Defined.

Lemma commutator_antisymmetric_witness :
  Convenience.commutator E G = msub (matmul E G) (matmul G E) /\
  (forall i j, i < 2 -> j < 2 ->
     entry (Convenience.commutator E G) i j
     = csub (prod_entry 2 E G i j) (prod_entry 2 G E i j)) /\
  Convenience.commutator E G = mopp (Convenience.commutator G E).
Proof.
  apply (@commutator_antisymmetric Z Z_Num Zth 2 E G); shape.
Defined.

Lemma swap_basis_orthonormal : dot_orthonormal swap_basis.
Proof.
  intros i j Hi Hj. unfold nrows in *; simpl in *.
  destruct i as [|[|i]]; destruct j as [|[|j]]; try lia; reflexivity.
Defined.

Lemma x_in_span : in_span x swap_basis.
Proof.
  exists [4; 3]%Z. split; reflexivity.
Defined.

Lemma project_reconstructs_witness :
  Convenience.project x swap_basis = x.
Proof.
  apply (@project_reconstructs Z Z_Num Zth x swap_basis).
  - shape.
  - exact swap_basis_orthonormal.
  - exact x_in_span.
Defined.

(** C5, as stated, fails on complex input: [[1j]] is orthonormal for the
    Hermitian inner product and [1j] lies in its span, yet [project]
    returns [-1j]. *)
Lemma project_complex_counterexample :
  wf i_basis /\
  hermitian_orthonormal Gauss.conj i_basis /\
  in_span i_vector i_basis /\
  Convenience.project i_vector i_basis = [Gauss.opp Gauss.i] /\
  Convenience.project i_vector i_basis <> i_vector.
Proof.
  split; [shape|]. split; [|split; [|split]].
  - intros i j Hi Hj. unfold nrows in *; simpl in *.
    destruct i; destruct j; try lia; reflexivity.
  - exists [cone]. split; reflexivity.
  - reflexivity.
  - discriminate.
Qed.

Lemma column_vector_round_trip_witness :
  bind (Convenience.matrix_to_column_vector_list wide)
       Convenience.column_vector_list_to_matrix
  = Some wide.
Proof.
  apply (@column_vector_round_trip Z _ wide).
  - shape.
  - unfold nrows; simpl; lia.
  - simpl; lia.
Defined.

(** C6, as stated, fails on a matrix that has a column and no row:
    [vstack] of its empty column raises. *)
Lemma column_vector_no_rows_counterexample :
  wf no_rows /\ 0 < ncols no_rows /\
  Convenience.matrix_to_column_vector_list no_rows = None /\
  bind (Convenience.matrix_to_column_vector_list no_rows)
       Convenience.column_vector_list_to_matrix
  <> Some no_rows.
Proof.
  split; [shape|]. split; [simpl; lia|]. split; [reflexivity|discriminate].
Qed.

Lemma gram_schmidt_first_row_witness :
  row 0 (Convenience.gram_schmidt X true false) = row 0 X.
Proof.
  apply (@gram_schmidt_first_row R _ _ X). unfold nrows; simpl; lia.
Defined.

End Samples.

(** ** Complex arithmetic *)

(** The Gaussian integers obey the ring laws, so the properties above hold
    of complex arrays as well. *)
Lemma Gauss_ring :
  ring_theory (czero (C := Gauss.t)) cone cadd cmul csub copp eq.
Proof.
  constructor; intros; repeat match goal with x : Gauss.t |- _ => destruct x end;
    unfold cadd, cmul, csub, copp, czero, cone, Gauss_Num,
      Gauss.add, Gauss.mul, Gauss.sub, Gauss.opp, fst, snd;
    f_equal; ring.
Qed.

(** * Further properties of the two modules *)

(** ** Arrays, entry by entry *)

Section EntryFacts.
Context {C : Type} `{Num C}.

(** Two arrays of one shape with the same entries are the same array. *)
Lemma ndarray_ext (r c : nat) (a b : ndarray C) :
  has_shape r c a -> has_shape r c b ->
  (forall i j, i < r -> j < c -> entry a i j = entry b i j) ->
  a = b.
Proof.
  intros Ha Hb Hab.
  assert (Hrows : rows a = rows b).
  { apply (nth_ext _ _ [] []).
    - destruct Ha as (Ha & _), Hb as (Hb & _). unfold nrows in Ha, Hb. congruence.
    - intros i Hi. fold (row i a) (row i b).
      assert (Hi' : i < r) by (destruct Ha as (Ha & _); unfold nrows in Ha; lia).
      apply (nth_ext _ _ czero czero).
      + now rewrite (row_length Ha Hi'), (row_length Hb Hi').
      + intros j Hj. rewrite (row_length Ha Hi') in Hj. now apply Hab. }
  destruct Ha as (_ & Hac & _), Hb as (_ & Hbc & _).
  destruct a as [ca ra], b as [cb rb]; simpl in *. congruence.
Qed.

Lemma transpose_shape (m : ndarray C) :
  has_shape (ncols m) (nrows m) (transpose m).
Proof.
  unfold has_shape, nrows, wf, transpose; simpl.
  rewrite length_map, length_seq. repeat split.
  apply Forall_forall. intros s Hs. apply in_map_iff in Hs.
  destruct Hs as (j & <- & _). apply col_length.
Qed.

Lemma row_transpose (m : ndarray C) (j : nat) :
  j < ncols m -> row j (transpose m) = col j m.
Proof.
  intros Hj. unfold row, transpose; simpl. now rewrite nth_map_seq.
Qed.

Lemma entry_transpose (m : ndarray C) (i j : nat) :
  i < ncols m -> entry (transpose m) i j = entry m j i.
Proof.
  intros Hi. unfold entry at 1. rewrite row_transpose by exact Hi.
  apply nth_col.
Qed.

(** Column [j] of the transpose is row [j]. *)
Lemma col_transpose (r c : nat) (m : ndarray C) (j : nat) :
  has_shape r c m -> j < r -> col j (transpose m) = row j m.
Proof.
  intros Hm Hj. pose proof (row_length Hm Hj) as Hlen.
  destruct Hm as (Hr & Hc & _).
  unfold col, transpose; simpl. rewrite map_map, Hc.
  rewrite <- (map_nth_seq (row j m) czero), Hlen.
  apply map_ext. intros k. apply nth_col.
Qed.

Lemma transpose_involutive (m : ndarray C) :
  wf m -> transpose (transpose m) = m.
Proof.
  intros Hwf.
  apply (@ndarray_ext (nrows m) (ncols m)).
  - pose proof (transpose_shape (transpose m)) as Hs.
    destruct (transpose_shape m) as (Hr & Hc & _).
    now rewrite Hr, Hc in Hs.
  - repeat split; auto.
  - intros i j Hi Hj.
    destruct (transpose_shape m) as (Hr & Hc & _).
    rewrite entry_transpose by (rewrite Hc; exact Hi).
    now rewrite entry_transpose.
Qed.

End EntryFacts.

(** ** The generic backward rule as a product *)

Section ExpmVjpProduct.
Context {C : Type} `{Num C}.

(** X1.  On n x n arrays, the array that the two loops of [_expm_vjp] fill
    is the matrix product of the cotangent with the transpose of the
    exponential: [_expm_vjp(E, M)(G) = G @ E.T]. *)
Theorem expm_vjp_matmul_transpose (n : nat) (E M G : ndarray C) :
  has_shape n n M -> has_shape n n E -> has_shape n n G ->
  Expm._expm_vjp E M G = matmul G (transpose E).
Proof.
  intros (HMr & _ & _) HE HG.
  unfold Expm._expm_vjp. rewrite HMr.
  assert (Hseq : Forall (fun i => i < n) (seq 0 n)).
  { apply Forall_forall. intros i Hi. apply in_seq in Hi. lia. }
  destruct (outer_loop_entry
              (fun i j => np_sum (np_multiply (row i G) (row j E)))
              Hseq (zeros2_shape n n)) as [Hs He].
  assert (HET : has_shape n n (transpose E)).
  { pose proof (transpose_shape E) as Ht.
    destruct HE as (Hr & Hc & _). now rewrite Hr, Hc in Ht. }
  apply (ndarray_ext Hs).
  - apply matmul_shape; [apply HG | apply HET].
  - intros i j Hi Hj.
    rewrite (He _ _ Hj), (existsb_eqb_seq Hi).
    rewrite entry_matmul.
    + now rewrite (col_transpose HE Hj).
    + destruct HG as (-> & _). exact Hi.
    + destruct HET as (_ & -> & _). exact Hj.
Qed.

End ExpmVjpProduct.

(** ** Sums under the laws of arithmetic *)

Section SumLaws.
Context {C : Type} `{Num C}.
Hypothesis Cring : ring_theory czero cone cadd cmul csub copp eq.
Add Ring Cr_sums : Cring.

Lemma np_sum_nil : np_sum (@nil C) = czero.
Proof. reflexivity. Qed.

Lemma np_sum_map_add {A : Type} (f g : A -> C) (l : list A) :
  np_sum (map (fun x => cadd (f x) (g x)) l)
  = cadd (np_sum (map f l)) (np_sum (map g l)).
Proof.
  induction l as [|a l IH]; simpl.
  - rewrite np_sum_nil. ring.
  - rewrite !(np_sum_cons Cring), IH. ring.
Qed.

Lemma np_sum_map_scale_l {A : Type} (c : C) (f : A -> C) (l : list A) :
  np_sum (map (fun x => cmul c (f x)) l) = cmul c (np_sum (map f l)).
Proof.
  induction l as [|a l IH]; simpl.
  - rewrite np_sum_nil. ring.
  - rewrite !(np_sum_cons Cring), IH. ring.
Qed.

Lemma np_sum_map_scale_r {A : Type} (c : C) (f : A -> C) (l : list A) :
  np_sum (map (fun x => cmul (f x) c) l) = cmul (np_sum (map f l)) c.
Proof.
  induction l as [|a l IH]; simpl.
  - rewrite np_sum_nil. ring.
  - rewrite !(np_sum_cons Cring), IH. ring.
Qed.

Lemma np_sum_map_zero {A : Type} (l : list A) :
  np_sum (map (fun _ => czero) l) = czero.
Proof.
  induction l as [|a l IH]; simpl; auto.
  rewrite (np_sum_cons Cring), IH. ring.
Qed.

(** Two nested sums can be taken in either order. *)
Lemma np_sum_swap {A B : Type} (f : A -> B -> C) (la : list A) (lb : list B) :
  np_sum (map (fun a => np_sum (map (fun b => f a b) lb)) la)
  = np_sum (map (fun b => np_sum (map (fun a => f a b) la)) lb).
Proof.
  induction la as [|a la IH]; simpl.
  - now rewrite np_sum_map_zero.
  - rewrite (np_sum_cons Cring), IH.
    rewrite <- np_sum_map_add. f_equal. apply map_ext.
    intros b. now rewrite (np_sum_cons Cring).
Qed.

Lemma np_sum_permutation (l l' : list C) :
  Permutation l l' -> np_sum l = np_sum l'.
Proof.
  induction 1 as [|x l l' _ IH|x y l|l l' l'' _ IH1 _ IH2].
  - reflexivity.
  - now rewrite !(np_sum_cons Cring), IH.
  - rewrite !(np_sum_cons Cring). ring.
  - congruence.
Qed.

Lemma dot_zeros_r (n : nat) (u : list C) : dot u (zeros n) = czero.
Proof.
  revert u; induction n as [|n IH]; intros [|x u]; try reflexivity.
  unfold zeros; simpl. rewrite (dot_cons Cring). fold (zeros n).
  rewrite IH. ring.
Qed.

Lemma col_zeros2 (r c j : nat) : col j (zeros2 r c) = zeros r.
Proof.
  unfold col, zeros2, zeros; simpl.
  induction r as [|r IH]; simpl; auto.
  f_equal; [apply nth_zeros | exact IH].
Qed.

(** *** The matrix product *)

Lemma matmul_zeros2_r (r n c : nat) (a : ndarray C) :
  nrows a = r -> matmul a (zeros2 n c) = zeros2 r c.
Proof.
  intros Hr.
  assert (Hrow : forall u : list C,
            map (fun j => dot u (col j (zeros2 n c))) (seq 0 c) = zeros c).
  { intros u.
    rewrite (map_ext _ (fun _ => czero))
      by (intros j; rewrite col_zeros2; apply dot_zeros_r).
    unfold zeros. generalize 0.
    induction c as [|c IH]; intros s; simpl; auto. f_equal. apply IH. }
  unfold matmul. change (ncols (zeros2 n c)) with c.
  rewrite (map_ext _ (fun _ => zeros c)) by exact Hrow.
  unfold zeros2. f_equal. subst r. unfold nrows.
  induction (rows a) as [|u l IH]; simpl; auto. now rewrite IH.
Qed.

(** The matrix product is associative. *)
Lemma matmul_assoc (r k m c : nat) (a b d : ndarray C) :
  has_shape r k a -> has_shape k m b -> has_shape m c d ->
  matmul (matmul a b) d = matmul a (matmul b d).
Proof.
  intros Ha Hb Hd.
  assert (Hab : has_shape r m (matmul a b))
    by (apply matmul_shape; [apply Ha | apply Hb]).
  assert (Hbd : has_shape k c (matmul b d))
    by (apply matmul_shape; [apply Hb | apply Hd]).
  apply (@ndarray_ext _ _ r c).
  - apply matmul_shape; [apply Hab | apply Hd].
  - apply matmul_shape; [apply Ha | apply Hbd].
  - intros i j Hi Hj.
    rewrite (entry_matmul_prod Hab Hd Hi Hj), (entry_matmul_prod Ha Hbd Hi Hj).
    unfold prod_entry.
    rewrite (bigsum_ext _
               (fun q => bigsum (fun p => cmul (cmul (entry a i p) (entry b p q))
                                               (entry d q j)) k)).
    2:{ intros q Hq. rewrite (entry_matmul_prod Ha Hb Hi Hq).
        unfold prod_entry, bigsum. now rewrite <- np_sum_map_scale_r. }
    rewrite (bigsum_ext (fun p => cmul (entry a i p) (entry (matmul b d) p j))
               (fun p => bigsum (fun q => cmul (cmul (entry a i p) (entry b p q))
                                               (entry d q j)) m)).
    2:{ intros p Hp. rewrite (entry_matmul_prod Hb Hd Hp Hj).
        unfold prod_entry, bigsum. rewrite <- np_sum_map_scale_l.
        f_equal. apply map_ext. intros q. ring. }
    unfold bigsum. apply np_sum_swap.
Qed.

(** *** The fast-path backward rule and its control matrices *)

(** The accumulated sensitivity, entry by entry, as a sum over the control
    matrices. *)
Lemma accumulate_zero_entry (n : nat) (E : ndarray C) (L : list (ndarray C)) :
  has_shape n n E -> Forall (has_shape n n) L ->
  let D := fold_left (fun a Hk => madd a (matmul Hk E)) L (zeros2 n n) in
  has_shape n n D /\
  forall i j, i < n -> j < n ->
    entry D i j = np_sum (map (fun Hk => prod_entry n Hk E i j) L).
Proof.
  intros HE HL.
  destruct (accumulate_entry HE HL (zeros2_shape n n)) as [Hs He].
  split; [exact Hs|]. intros i j Hi Hj.
  rewrite (He i j Hi Hj), entry_zeros2. reflexivity.
Qed.

(** X2.  With an empty control matrix list the fast-path backward rule
    returns the n x n zero array, whatever the cotangent. *)
Theorem expm_fastgrad_vjp_no_controls (n : nat) (E M G : ndarray C) :
  has_shape n n M -> has_shape n n G ->
  Expm._expm_fastgrad_vjp E M [] G = zeros2 n n.
Proof.
  intros (HMr & _ & _) (HGr & _ & _).
  unfold Expm._expm_fastgrad_vjp. rewrite HMr. simpl.
  now apply matmul_zeros2_r.
Qed.

(** X3.  The fast-path backward rule does not see the order of the control
    matrices: a permutation of the list gives the same result. *)
Theorem expm_fastgrad_vjp_permutation (n : nat) (E M G : ndarray C)
    (L L' : list (ndarray C)) :
  has_shape n n M -> has_shape n n E -> Forall (has_shape n n) L ->
  Permutation L L' ->
  Expm._expm_fastgrad_vjp E M L G = Expm._expm_fastgrad_vjp E M L' G.
Proof.
  intros (HMr & _ & _) HE HL HP.
  assert (HL' : Forall (has_shape n n) L')
    by (eapply Permutation_Forall; eassumption).
  unfold Expm._expm_fastgrad_vjp. rewrite HMr. f_equal.
  destruct (accumulate_zero_entry HE HL) as [Hs He].
  destruct (accumulate_zero_entry HE HL') as [Hs' He'].
  apply (ndarray_ext Hs Hs'). intros i j Hi Hj.
  rewrite (He i j Hi Hj), (He' i j Hi Hj).
  apply np_sum_permutation. now apply Permutation_map.
Qed.

(** X4.  The fast-path backward rule returns one array, the sum over the
    control matrices [H_k] of the products [G @ H_k @ E]; it does not keep
    the contributions of the controls apart. *)
Theorem expm_fastgrad_vjp_sum_of_products (n : nat) (E M G : ndarray C)
    (L : list (ndarray C)) :
  has_shape n n M -> has_shape n n E -> has_shape n n G ->
  Forall (has_shape n n) L ->
  forall i j, i < n -> j < n ->
    entry (Expm._expm_fastgrad_vjp E M L G) i j
    = np_sum (map (fun Hk => entry (matmul G (matmul Hk E)) i j) L).
Proof.
  intros (HMr & _ & _) HE HG HL i j Hi Hj.
  unfold Expm._expm_fastgrad_vjp. rewrite HMr.
  destruct (accumulate_zero_entry HE HL) as [Hs He].
  rewrite (entry_matmul_prod HG Hs Hi Hj). unfold prod_entry at 1.
  rewrite (bigsum_ext _
             (fun l => np_sum (map (fun Hk => cmul (entry G i l)
                                                  (prod_entry n Hk E l j)) L))).
  2:{ intros l Hl. rewrite (He l j Hl Hj). now rewrite np_sum_map_scale_l. }
  unfold bigsum. rewrite np_sum_swap. f_equal.
  apply map_ext_in. intros Hk HHk.
  rewrite Forall_forall in HL. specialize (HL Hk HHk).
  assert (HkE : has_shape n n (matmul Hk E))
    by (apply matmul_shape; [apply HL | apply HE]).
  rewrite (entry_matmul_prod HG HkE Hi Hj). unfold prod_entry at 2, bigsum.
  f_equal. apply map_ext_in. intros l Hl. apply in_seq in Hl.
  now rewrite (entry_matmul_prod HL HE) by lia.
Qed.

(** *** matmuls *)

Lemma fold_matmul_shape (n : nat) (l : list (ndarray C)) :
  Forall (has_shape n n) l ->
  forall a, has_shape n n a -> has_shape n n (fold_left matmul l a).
Proof.
  induction 1 as [|b l Hb _ IH]; intros a Ha; simpl; auto.
  apply IH. apply matmul_shape; [apply Ha | apply Hb].
Qed.

Lemma fold_matmul_assoc (n : nat) (l : list (ndarray C)) :
  Forall (has_shape n n) l ->
  forall p b, has_shape n n p -> has_shape n n b ->
    fold_left matmul l (matmul p b) = matmul p (fold_left matmul l b).
Proof.
  induction 1 as [|d l Hd _ IH]; intros p b Hp Hb; simpl; auto.
  rewrite (matmul_assoc Hp Hb Hd).
  apply IH; auto. apply matmul_shape; [apply Hb | apply Hd].
Qed.

(** X5.  [matmuls] raises on an empty argument list only, and a non-empty
    chain of n x n arrays gives an n x n array. *)
Theorem matmuls_square_chain (n : nat) (l : list (ndarray C)) :
  Forall (has_shape n n) l ->
  match Convenience.matmuls l with
  | None => l = []
  | Some p => l <> [] /\ has_shape n n p
  end.
Proof.
  intros Hl. destruct Hl as [|a l Ha Hl]; simpl; auto.
  split; [discriminate|]. now apply fold_matmul_shape.
Qed.

(** X6.  [matmuls] over a chain of n x n arrays cut in two is the product
    of [matmuls] over the two parts. *)
Theorem matmuls_app (n : nat) (l1 l2 : list (ndarray C)) (p1 p2 : ndarray C) :
  Forall (has_shape n n) l1 -> Forall (has_shape n n) l2 ->
  Convenience.matmuls l1 = Some p1 -> Convenience.matmuls l2 = Some p2 ->
  Convenience.matmuls (l1 ++ l2) = Some (matmul p1 p2).
Proof.
  intros H1 H2 E1 E2.
  destruct H1 as [|a l1 Ha H1]; [discriminate|].
  destruct H2 as [|b l2 Hb H2]; [discriminate|].
  unfold Convenience.matmuls, reduce in *. simpl in *.
  injection E1 as <-. injection E2 as <-.
  rewrite fold_left_app. simpl. f_equal.
  apply (fold_matmul_assoc H2); auto. now apply fold_matmul_shape.
Qed.

(** *** commutator *)

Lemma vsub_diag (u : list C) : vsub u u = zeros (length u).
Proof.
  unfold vsub, zeros. induction u as [|x u IH]; simpl; auto.
  f_equal; [ring | exact IH].
Qed.

Lemma rows_sub_diag (c : nat) (l : list (list C)) :
  Forall (fun r => length r = c) l ->
  map2 vsub l l = repeat (zeros c) (length l).
Proof.
  induction 1 as [|u l Hu _ IH]; simpl; auto.
  now rewrite vsub_diag, Hu, IH.
Qed.

(** X7.  The commutator of a square array with itself is the zero array. *)
Theorem commutator_self (n : nat) (A : ndarray C) :
  has_shape n n A -> Convenience.commutator A A = zeros2 n n.
Proof.
  intros HA.
  assert (HAA : has_shape n n (matmul A A))
    by (apply matmul_shape; apply HA).
  destruct HAA as (Hr & Hc & Hwf). unfold wf in Hwf. rewrite Hc in Hwf.
  unfold Convenience.commutator, msub, zeros2. rewrite Hc. f_equal.
  rewrite (rows_sub_diag Hwf). f_equal. exact Hr.
Qed.

(** *** project *)

(** Against a row of an orthonormal basis, the inner product of a linear
    combination of the rows is the coefficient of that row. *)
Lemma dot_lincomb_orthonormal (basis : ndarray C) (cs : list C) (i : nat) :
  wf basis -> dot_orthonormal basis -> length cs = nrows basis ->
  i < nrows basis ->
  dot (lincomb (ncols basis) cs (rows basis)) (row i basis) = nth i cs czero.
Proof.
  intros Hwf Horth Hcs Hi.
  rewrite (dot_lincomb Cring); auto.
  - rewrite <- (map_nth_seq (rows basis) []) at 1.
    rewrite map_map.
    rewrite (map_ext_in _ (fun j => if j =? i then cone else czero)).
    + fold (nrows basis). rewrite <- Hcs, (weighted_sum_delta Cring).
      simpl. rewrite Nat.sub_0_r.
      replace (i <? length cs) with true by (symmetry; apply Nat.ltb_lt; lia).
      reflexivity.
    + intros j Hj. apply in_seq in Hj. fold (row j basis).
      apply Horth; unfold nrows in *; lia.
  - unfold wf in Hwf. rewrite Forall_forall in Hwf.
    apply Hwf, nth_In. exact Hi.
Qed.

(** X8.  For a basis with orthonormal rows, the result of [project] has the
    same inner product with every row of the basis as the vector projected:
    what [project] removes from [x] is orthogonal to the basis. *)
Theorem project_keeps_basis_products (x : list C) (basis : ndarray C) (i : nat) :
  wf basis -> dot_orthonormal basis -> length x = ncols basis ->
  i < nrows basis ->
  dot (Convenience.project x basis) (row i basis) = dot x (row i basis).
Proof.
  intros Hwf Horth Hx Hi.
  rewrite (project_lincomb Cring) by assumption.
  rewrite dot_lincomb_orthonormal; auto.
  - unfold row. now rewrite (nth_map_lt _ _ []).
  - unfold nrows. apply length_map.
Qed.

(** X9.  For a basis with orthonormal rows, [project] is idempotent:
    projecting a projection changes nothing. *)
Theorem project_idempotent (x : list C) (basis : ndarray C) :
  wf basis -> dot_orthonormal basis -> length x = ncols basis ->
  Convenience.project (Convenience.project x basis) basis
  = Convenience.project x basis.
Proof.
  intros Hwf Horth Hx.
  rewrite (project_lincomb Cring x) by assumption.
  set (cs := map (dot x) (rows basis)).
  assert (Hcs : length cs = nrows basis) by apply length_map.
  rewrite (project_lincomb Cring) by (auto; now apply lincomb_length).
  f_equal.
  apply (nth_ext _ _ czero czero).
  - rewrite length_map. symmetry. exact Hcs.
  - intros i Hi. rewrite length_map in Hi.
    rewrite (nth_map_lt _ _ []) by exact Hi. fold (row i basis).
    now apply dot_lincomb_orthonormal.
Qed.

End SumLaws.

(** ** Kronecker products *)

Section Krons.
Context {C : Type} `{Num C}.

Lemma length_flat_map_uniform {A B : Type} (f : A -> list B) (k : nat)
    (l : list A) :
  (forall x, length (f x) = k) -> length (flat_map f l) = length l * k.
Proof.
  intros Hf. induction l as [|a l IH]; simpl; auto.
  now rewrite length_app, Hf, IH.
Qed.

(** In a concatenation of blocks of one length, item [t] of block [i]. *)
Lemma nth_flat_map_uniform {A B : Type} (f : A -> list B) (k : nat)
    (l : list A) (i t : nat) (d : B) (d' : A) :
  (forall x, length (f x) = k) -> i < length l -> t < k ->
  nth (i * k + t) (flat_map f l) d = nth t (f (nth i l d')) d.
Proof.
  intros Hf. revert i; induction l as [|a l IH]; intros i Hi Ht; simpl in *.
  - lia.
  - destruct i as [|i]; simpl.
    + apply app_nth1. now rewrite Hf.
    + rewrite app_nth2 by (rewrite Hf; lia).
      rewrite Hf. replace (k + i * k + t - k) with (i * k + t) by lia.
      apply IH; lia.
Qed.

Lemma kron_shape (r c p q : nat) (a b : ndarray C) :
  has_shape r c a -> has_shape p q b -> has_shape (r * p) (c * q) (kron a b).
Proof.
  intros (Har & Hac & Hawf) (Hbr & Hbc & Hbwf).
  unfold has_shape, nrows, wf, kron in *; simpl.
  split; [|split].
  - rewrite (@length_flat_map_uniform _ _ _ p).
    + now rewrite Har.
    + intros ra. now rewrite length_map.
  - now rewrite Hac, Hbc.
  - rewrite Forall_forall in *. intros s Hs.
    apply in_flat_map in Hs. destruct Hs as (ra & Hra & Hs).
    apply in_map_iff in Hs. destruct Hs as (rb & <- & Hrb).
    rewrite (@length_flat_map_uniform _ _ _ (length rb)).
    + now rewrite (Hawf ra Hra), (Hbwf rb Hrb).
    + intros x. apply length_map.
Qed.

Lemma fold_kron_shape (l : list (ndarray C)) :
  Forall wf l ->
  forall a, wf a ->
    has_shape (nrows a * fold_right Nat.mul 1 (map (@nrows C) l))
              (ncols a * fold_right Nat.mul 1 (map (@ncols C) l))
              (fold_left kron l a).
Proof.
  induction 1 as [|b l Hb _ IH]; intros a Ha; simpl.
  - rewrite !Nat.mul_1_r. repeat split; auto.
  - assert (Hab : has_shape (nrows a * nrows b) (ncols a * ncols b) (kron a b))
      by (apply kron_shape; repeat split; auto).
    pose proof (IH (kron a b) (proj2 (proj2 Hab))) as Hs.
    destruct Hab as (Hr & Hc & _). rewrite Hr, Hc in Hs.
    now rewrite !Nat.mul_assoc.
Qed.

(** X10.  [krons] raises on an empty argument list only; on a non-empty
    list of arrays the result has, along each axis, the product of the
    sizes of the factors. *)
Theorem krons_shape (l : list (ndarray C)) :
  Forall wf l ->
  match Convenience.krons l with
  | None => l = []
  | Some k =>
      l <> [] /\
      has_shape (fold_right Nat.mul 1 (map (@nrows C) l))
                (fold_right Nat.mul 1 (map (@ncols C) l)) k
  end.
Proof.
  intros Hl. destruct Hl as [|a l Ha Hl]; simpl; auto.
  split; [discriminate|]. now apply fold_kron_shape.
Qed.

(** X11.  [krons] of two arrays [a] (r x c) and [b] (p x q) is made of
    blocks: its entry at row [i * p + k] and column [j * q + l] is
    [a[i, j] * b[k, l]]. *)
Theorem krons_pair_entry (r c p q : nat) (a b : ndarray C) (i j k l : nat) :
  has_shape r c a -> has_shape p q b ->
  i < r -> j < c -> k < p -> l < q ->
  exists K, Convenience.krons [a; b] = Some K /\
    entry K (i * p + k) (j * q + l) = cmul (entry a i j) (entry b k l).
Proof.
  intros Ha Hb Hi Hj Hk Hl.
  exists (kron a b). split; [reflexivity|].
  pose proof (row_length Ha Hi) as Hla. pose proof (row_length Hb Hk) as Hlb.
  destruct Ha as (Har & _ & _). destruct Hb as (Hbr & _ & _).
  unfold nrows in *. unfold entry at 1, row at 1, kron; simpl.
  rewrite (@nth_flat_map_uniform _ _ _ p _ _ _ _ [])
    by (auto; try lia; intros ra; now rewrite length_map).
  rewrite (nth_map_lt _ _ []) by lia.
  fold (row i a) (row k b).
  rewrite (@nth_flat_map_uniform _ _ _ q _ _ _ _ czero)
    by (auto; try lia; intros x; now rewrite length_map).
  rewrite (nth_map_lt _ _ czero) by lia.
  reflexivity.
Qed.

End Krons.

(** ** conjugate_transpose *)

Section ConjugateTranspose.
Context {C : Type} `{Inexact C}.

Lemma np_conjugate_shape (r c : nat) (m : ndarray C) :
  has_shape r c m -> has_shape r c (Convenience.np_conjugate m).
Proof.
  intros (Hr & Hc & Hwf). unfold has_shape, nrows, wf in *.
  unfold Convenience.np_conjugate; simpl. rewrite length_map.
  repeat split; auto.
  rewrite Forall_forall in *. intros s Hs. apply in_map_iff in Hs.
  destruct Hs as (u & <- & Hu). rewrite length_map. now apply Hwf.
Qed.

Lemma entry_np_conjugate (r c : nat) (m : ndarray C) (i j : nat) :
  has_shape r c m -> i < r -> j < c ->
  entry (Convenience.np_conjugate m) i j = cconj (entry m i j).
Proof.
  intros Hm Hi Hj. pose proof (row_length Hm Hi) as Hlen.
  destruct Hm as (Hr & _ & _). unfold nrows in Hr.
  unfold entry, row, Convenience.np_conjugate in *; simpl.
  rewrite (nth_map_lt _ _ []) by lia.
  now rewrite (nth_map_lt _ _ czero) by lia.
Qed.

Lemma conjugate_transpose_shape (r c : nat) (m : ndarray C) :
  has_shape r c m -> has_shape c r (Convenience.conjugate_transpose m).
Proof.
  intros (Hr & Hc & _). unfold Convenience.conjugate_transpose.
  apply np_conjugate_shape.
  pose proof (transpose_shape m) as Ht. now rewrite Hr, Hc in Ht.
Qed.

Lemma entry_conjugate_transpose (r c : nat) (m : ndarray C) (i j : nat) :
  has_shape r c m -> i < c -> j < r ->
  entry (Convenience.conjugate_transpose m) i j = cconj (entry m j i).
Proof.
  intros Hm Hi Hj. unfold Convenience.conjugate_transpose.
  assert (Ht : has_shape c r (transpose m)).
  { pose proof (transpose_shape m) as Ht.
    destruct Hm as (Hr & Hc & _). now rewrite Hr, Hc in Ht. }
  rewrite (entry_np_conjugate Ht Hi Hj).
  rewrite entry_transpose; auto. destruct Hm as (_ & -> & _). exact Hi.
Qed.

Hypothesis conj_involutive : forall x : C, cconj (cconj x) = x.

Lemma conjugate_transpose_twice (m : ndarray C) :
  wf m ->
  Convenience.conjugate_transpose (Convenience.conjugate_transpose m) = m.
Proof.
  intros Hwf.
  assert (Hm : has_shape (nrows m) (ncols m) m) by (repeat split; auto).
  pose proof (conjugate_transpose_shape Hm) as Ht.
  apply (ndarray_ext (conjugate_transpose_shape Ht) Hm).
  intros i j Hi Hj.
  rewrite (entry_conjugate_transpose Ht Hi Hj).
  rewrite (entry_conjugate_transpose Hm Hj Hi).
  apply conj_involutive.
Qed.

(** X12.  [conjugate_transpose] undoes itself, on a matrix and on a stack
    of matrices alike. *)
Theorem conjugate_transpose_involutive (m : ndarray C)
    (a : ndarray3 (C := C)) :
  (wf m ->
   Convenience.conjugate_transpose (Convenience.conjugate_transpose m) = m) /\
  (Forall wf (items a) ->
   Convenience.conjugate_transpose_stack
     (Convenience.conjugate_transpose_stack a) = a).
Proof.
  split; [apply conjugate_transpose_twice|].
  intros Ha. destruct a as [[p q] its].
  unfold Convenience.conjugate_transpose_stack; simpl in *. f_equal.
  rewrite map_map.
  induction Ha as [|b its Hb _ IH]; simpl; auto.
  now rewrite conjugate_transpose_twice, IH.
Qed.

End ConjugateTranspose.

Section ConjugateProduct.
Context {C : Type} `{Inexact C}.
Hypothesis Cring : ring_theory czero cone cadd cmul csub copp eq.
Hypothesis conj_zero : cconj czero = czero.
Hypothesis conj_add : forall x y : C, cconj (cadd x y) = cadd (cconj x) (cconj y).
Hypothesis conj_mul : forall x y : C, cconj (cmul x y) = cmul (cconj x) (cconj y).
Add Ring Cr_conj : Cring.

Lemma conj_np_sum (l : list C) : cconj (np_sum l) = np_sum (map cconj l).
Proof.
  induction l as [|x l IH]; simpl.
  - exact conj_zero.
  - now rewrite !(np_sum_cons Cring), conj_add, IH.
Qed.

(** X13.  The conjugate transpose of a matrix product is the product of
    the conjugate transposes in reverse order:
    [conjugate_transpose(a @ b) = conjugate_transpose(b) @ conjugate_transpose(a)]. *)
Theorem conjugate_transpose_matmul (r k c : nat) (a b : ndarray C) :
  has_shape r k a -> has_shape k c b ->
  Convenience.conjugate_transpose (matmul a b)
  = matmul (Convenience.conjugate_transpose b) (Convenience.conjugate_transpose a).
Proof.
  intros Ha Hb.
  assert (Hab : has_shape r c (matmul a b))
    by (apply matmul_shape; [apply Ha | apply Hb]).
  pose proof (conjugate_transpose_shape Ha) as Hta.
  pose proof (conjugate_transpose_shape Hb) as Htb.
  apply (@ndarray_ext _ _ c r).
  - now apply conjugate_transpose_shape.
  - apply matmul_shape; [apply Htb | apply Hta].
  - intros i j Hi Hj.
    rewrite (entry_conjugate_transpose Hab Hi Hj).
    rewrite (entry_matmul_prod Ha Hb Hj Hi).
    rewrite (entry_matmul_prod Htb Hta Hi Hj).
    unfold prod_entry, bigsum. rewrite conj_np_sum, map_map.
    f_equal. apply map_ext_in. intros m Hm. apply in_seq in Hm.
    rewrite conj_mul.
    rewrite (entry_conjugate_transpose Hb Hi) by lia.
    rewrite (entry_conjugate_transpose Ha) by lia.
    ring.
Qed.

(** *** rms_norm *)

(** X14.  [rms_norm] does not see a global phase: multiplying every item by
    a number [u] with [u * conj(u) = 1] leaves it unchanged. *)
Theorem rms_norm_phase_invariant (u : C) (v : list C) :
  cmul u (cconj u) = cone ->
  Convenience.rms_norm (vscale u v) = Convenience.rms_norm v.
Proof.
  intros Hu. unfold Convenience.rms_norm.
  assert (Hsq : np_multiply (vscale u v) (map cconj (vscale u v))
                = np_multiply v (map cconj v)).
  { unfold np_multiply, vscale. induction v as [|x v IH]; simpl; auto.
    rewrite IH. f_equal. rewrite conj_mul.
    transitivity (cmul (cmul u (cconj u)) (cmul x (cconj x))); [ring|].
    rewrite Hu. ring. }
  rewrite Hsq. unfold vscale. now rewrite length_map.
Qed.

End ConjugateProduct.

(** ** rms_norm on real arrays *)

Section RmsNormReal.
Open Scope R_scope.

Lemma R_ring : ring_theory (czero (C := R)) cone cadd cmul csub copp eq.
Proof. exact RTheory. Qed.

Lemma of_nat_INR (n : nat) : of_nat n = INR n.
Proof.
  induction n as [|n IH]; [reflexivity|].
  rewrite S_INR. cbn [of_nat]. now rewrite IH.
Qed.

(** On reals the sum under the root is the inner product of the array with
    itself. *)
Lemma rms_norm_real (v : list R) :
  Convenience.rms_norm v = sqrt (dot v v / INR (length v)).
Proof.
  unfold Convenience.rms_norm. cbn [cconj R_Inexact csqrt cdiv].
  now rewrite map_id, of_nat_INR.
Qed.

Lemma dot_self_nonneg (v : list R) : 0 <= dot v v.
Proof.
  induction v as [|x v IH].
  - unfold dot, np_sum; simpl. lra.
  - rewrite (dot_cons R_ring). cbn [cadd cmul R_Num].
    pose proof (Rle_0_sqr x) as Hx. unfold Rsqr in Hx. lra.
Qed.

Lemma dot_vscale_both (c : R) (v : list R) :
  dot (vscale c v) (vscale c v) = c * c * dot v v.
Proof.
  induction v as [|x v IH].
  - unfold dot, np_sum; simpl. ring.
  - cbn [vscale map]. fold (vscale c v).
    rewrite !(dot_cons R_ring), IH. cbn [cadd cmul R_Num]. ring.
Qed.

(** X15.  The rms norm of a non-empty all-zero real array is zero. *)
Theorem rms_norm_zeros (n : nat) :
  (0 < n)%nat -> Convenience.rms_norm (zeros (C := R) n) = 0.
Proof.
  intros _. rewrite rms_norm_real, (dot_zeros_r R_ring).
  cbn [czero R_Num]. unfold Rdiv. rewrite Rmult_0_l. apply sqrt_0.
Qed.

(** X16.  On a non-empty real array the rms norm is absolutely
    homogeneous: scaling the array by [c] scales the norm by [|c|]. *)
Theorem rms_norm_scale (c : R) (v : list R) :
  v <> [] ->
  Convenience.rms_norm (vscale c v) = Rabs c * Convenience.rms_norm v.
Proof.
  intros Hv. rewrite !rms_norm_real, dot_vscale_both.
  unfold vscale. rewrite length_map.
  assert (Hn : 0 < INR (length v)).
  { apply lt_0_INR. destruct v; [congruence | simpl; lia]. }
  replace (c * c * dot v v / INR (length v))
    with (Rsqr c * (dot v v / INR (length v))) by (unfold Rsqr; field; lra).
  rewrite sqrt_mult.
  - now rewrite sqrt_Rsqr_abs.
  - apply Rle_0_sqr.
  - apply Rmult_le_pos; [apply dot_self_nonneg|].
    apply Rlt_le, Rinv_0_lt_compat, Hn.
Qed.

End RmsNormReal.

(** ** The columns of a matrix, and back *)

Section ColumnVectors.
Context {C : Type} `{Num C}.

Lemma column_vector_shape (M : ndarray C) (j : nat) :
  has_shape (nrows M) 1 (column_vector M j).
Proof.
  unfold has_shape, nrows, wf, column_vector; simpl.
  rewrite length_map. split; [apply col_length|]. split; auto.
  apply Forall_forall. intros s Hs. apply in_map_iff in Hs.
  now destruct Hs as (x & <- & _).
Qed.

(** On a matrix with a row and a column, the stack of its columns. *)
Lemma matrix_to_column_vector_list_some (M : ndarray C) :
  0 < nrows M -> 0 < ncols M ->
  Convenience.matrix_to_column_vector_list M
  = Some (mk_ndarray3 (nrows M, 1) (map (column_vector M) (seq 0 (ncols M)))).
Proof.
  intros Hr Hc. unfold Convenience.matrix_to_column_vector_list.
  rewrite (traverse_some _ (column_vector M)).
  2:{ intros j _. apply vstack_some. intros Hnil.
      apply (f_equal (@length C)) in Hnil. rewrite col_length in Hnil.
      simpl in Hnil. lia. }
  destruct (ncols M) as [|nc]; [lia|].
  cbn [seq map bind stack].
  assert (Hall : forallb
            (fun b => (nrows b =? nrows (column_vector M 0))
                      && (ncols b =? ncols (column_vector M 0)))
            (map (column_vector M) (seq 1 nc)) = true).
  { apply forallb_forall. intros b Hb. apply in_map_iff in Hb.
    destruct Hb as (j & <- & _).
    destruct (column_vector_shape M j) as (-> & -> & _).
    destruct (column_vector_shape M 0) as (-> & -> & _).
    now rewrite !Nat.eqb_refl. }
  rewrite Hall.
  now destruct (column_vector_shape M 0) as (-> & -> & _).
Qed.

(** X17.  [matrix_to_column_vector_list] raises exactly on a matrix with no
    row or no column; otherwise it returns a stack with one item per
    column, item [j] being column [j] as an array of shape (rows, 1). *)
Theorem matrix_to_column_vector_list_result (M : ndarray C) :
  match Convenience.matrix_to_column_vector_list M with
  | None => nrows M = 0 \/ ncols M = 0
  | Some a =>
      0 < nrows M /\ 0 < ncols M /\
      item_shape a = (nrows M, 1) /\
      items a = map (column_vector M) (seq 0 (ncols M))
  end.
Proof.
  destruct (Nat.eq_dec (ncols M) 0) as [Hc|Hc].
  - unfold Convenience.matrix_to_column_vector_list. rewrite Hc. simpl.
    now right.
  - destruct (Nat.eq_dec (nrows M) 0) as [Hr|Hr].
    + unfold Convenience.matrix_to_column_vector_list.
      destruct (ncols M) as [|nc]; [lia|].
      assert (Hcol : col 0 M = []).
      { apply length_zero_iff_nil. now rewrite col_length. }
      cbn [seq traverse]. rewrite Hcol. simpl. now left.
    + rewrite matrix_to_column_vector_list_some by lia.
      cbn [item_shape items]. repeat split; lia.
Qed.

Lemma nth_concat_singletons {A B : Type} (f : A -> list B) (l : list A)
    (j : nat) (d : B) (d' : A) :
  Forall (fun x => length (f x) = 1) l -> j < length l ->
  nth j (concat (map f l)) d = nth 0 (f (nth j l d')) d.
Proof.
  intros Hl. revert j; induction Hl as [|a l Ha _ IH]; intros j Hj; simpl in *.
  - lia.
  - destruct (f a) as [|y [|z t]] eqn:Hfa; simpl in Ha; try lia.
    destruct j as [|j]; simpl.
    + now rewrite Hfa.
    + apply IH. lia.
Qed.

(** X18.  The other round trip: a stack of one or more column vectors of
    shape (n, 1), n at least one, is given back by
    [matrix_to_column_vector_list] from the matrix that
    [column_vector_list_to_matrix] makes of it. *)
Theorem column_vector_list_round_trip (n : nat) (a : ndarray3 (C := C)) :
  0 < n -> items a <> [] -> item_shape a = (n, 1) ->
  Forall (has_shape n 1) (items a) ->
  bind (Convenience.column_vector_list_to_matrix a)
       Convenience.matrix_to_column_vector_list
  = Some a.
Proof.
  intros Hn Hne Hsh Hall. destruct a as [sh its]. simpl in *. subst sh.
  unfold Convenience.column_vector_list_to_matrix, hstack, concatenate1.
  cbn [items].
  destruct its as [|it0 rest] eqn:Hits; [congruence|]. rewrite <- Hits in *.
  assert (H0 : nrows it0 = n).
  { rewrite Hits in Hall. inversion Hall as [|? ? (Hr & _) _]. exact Hr. }
  assert (Hrest : forallb (fun b => nrows b =? nrows it0) rest = true).
  { apply forallb_forall. intros b Hb.
    rewrite Forall_forall in Hall.
    destruct (Hall b) as (-> & _); [rewrite Hits; now right|].
    rewrite H0. apply Nat.eqb_refl. }
  rewrite Hrest, H0. cbn [bind].
  set (M := mk_ndarray (list_sum (map (@ncols C) its))
              (map (fun i => concat (map (row i) its)) (seq 0 n))).
  assert (HMr : nrows M = n).
  { unfold M, nrows; simpl. now rewrite length_map, length_seq. }
  assert (HMc : ncols M = length its).
  { unfold M; simpl. clear -Hall.
    induction Hall as [|b l (_ & Hc & _) _ IH]; simpl; auto.
    now rewrite Hc, IH. }
  assert (Hlen0 : 0 < length its) by (rewrite Hits; simpl; lia).
  rewrite matrix_to_column_vector_list_some by lia.
  rewrite HMr, HMc. do 2 f_equal.
  rewrite <- (map_nth_seq its (mk_ndarray 0 [])) at 2.
  apply map_ext_in. intros j Hj. apply in_seq in Hj.
  set (b := nth j its (mk_ndarray 0 [])).
  assert (Hb : has_shape n 1 b).
  { rewrite Forall_forall in Hall. apply Hall, nth_In. lia. }
  assert (Hcol : col j M = map (fun i => entry b i 0) (seq 0 n)).
  { unfold col, M; simpl. rewrite map_map. apply map_ext_in.
    intros i Hi. apply in_seq in Hi.
    rewrite (@nth_concat_singletons _ _ (row i) its j czero (mk_ndarray 0 [])) by
      (try lia; apply Forall_forall; intros x Hx;
       rewrite Forall_forall in Hall; apply (row_length (Hall x Hx)); lia).
    reflexivity. }
  unfold column_vector. rewrite Hcol, map_map.
  destruct Hb as (Hbr & Hbc & Hbwf).
  destruct b as [cb rb] eqn:Eb. simpl in Hbc. subst cb. f_equal.
  unfold nrows in Hbr; simpl in Hbr. unfold wf in Hbwf; simpl in Hbwf.
  apply (nth_ext _ _ [] []).
  - now rewrite length_map, length_seq.
  - intros i Hi. rewrite length_map, length_seq in Hi.
    rewrite nth_map_seq by exact Hi.
    unfold entry, row; simpl.
    assert (Hlen : length (nth i rb []) = 1).
    { rewrite Forall_forall in Hbwf. apply Hbwf, nth_In. lia. }
    destruct (nth i rb []) as [|y [|z t]]; simpl in Hlen; try lia.
    reflexivity.
Qed.

End ColumnVectors.

(** ** Gram-Schmidt: the shape of the result *)

Section GramSchmidtShape.
Context {C : Type} `{Inexact C}.

Lemma sum_axis0_length (m : ndarray C) : length (sum_axis0 m) = ncols m.
Proof. unfold sum_axis0. now rewrite length_map, length_seq. Qed.

Lemma vstack_row_shape (k c : nat) (Y : ndarray C) (v : list C) :
  has_shape k c Y -> length v = c -> has_shape (S k) c (vstack_row Y v).
Proof.
  intros (Hk & Hc & Hwf) Hv. unfold has_shape, nrows, wf, vstack_row in *; simpl.
  rewrite length_app; simpl. repeat split; auto; [lia|].
  apply Forall_app. split; auto. constructor; [congruence | constructor].
Qed.

(** The loop appends one row of the right length per index visited. *)
Lemma gram_schmidt_loop_shape (c : nat) (X : ndarray C)
    (coef : ndarray C -> nat -> list C) (l : list nat) :
  wf X -> ncols X = c -> Forall (fun i => i < nrows X) l ->
  forall k Y, has_shape k c Y ->
    has_shape (k + length l) c
      (fold_left
         (fun Y i =>
            vstack_row Y (vsub (row i X) (sum_axis0 (matmul (np_diag (coef Y i)) Y))))
         l Y).
Proof.
  intros HX Hc Hl. induction Hl as [|i l Hi _ IH]; intros k Y HY; simpl.
  - now rewrite Nat.add_0_r.
  - replace (k + S (length l)) with (S k + length l) by lia.
    apply IH. apply vstack_row_shape; auto.
    unfold vsub. rewrite map2_length.
    + apply row_length with (r := nrows X); [repeat split; auto | exact Hi].
    + rewrite sum_axis0_length. cbn [matmul ncols].
      destruct HY as (_ & -> & _).
      apply row_length with (r := nrows X); [repeat split; auto | exact Hi].
Qed.

Lemma gram_schmidt_rows_shape (X : ndarray C) (norm : bool) :
  wf X -> has_shape (nrows X) (ncols X) (Convenience.gram_schmidt X true norm).
Proof.
  intros HX. unfold Convenience.gram_schmidt. cbn [negb].
  set (step := fun (Y : ndarray C) (i : nat) => vstack_row Y _).
  assert (Hloop : has_shape (nrows X) (ncols X)
                    (fold_left step (seq 1 (nrows X - 1)) (first_row_slice X))).
  { assert (Hseq : Forall (fun i => i < nrows X) (seq 1 (nrows X - 1))).
    { apply Forall_forall. intros i Hi. apply in_seq in Hi. lia. }
    assert (H0 : has_shape (Nat.min 1 (nrows X)) (ncols X) (first_row_slice X)).
    { unfold has_shape, nrows, wf, first_row_slice in *; cbn [rows ncols].
      rewrite length_firstn. repeat split; auto.
      destruct HX as [|x l Hx _]; cbn [firstn]; repeat constructor; auto. }
    pose proof (gram_schmidt_loop_shape
                  (fun Y i => map2 cdiv (vecmat (row i X) (transpose Y))
                                (Convenience.square (Convenience.norm_axis1 Y)))
                  HX eq_refl Hseq H0) as Hs.
    rewrite length_seq in Hs.
    replace (Nat.min 1 (nrows X) + (nrows X - 1)) with (nrows X) in Hs by lia.
    exact Hs. }
  destruct norm; [|exact Hloop].
  destruct Hloop as (Hr & Hc & _).
  apply matmul_shape; [|exact Hc].
  unfold nrows, np_diag; simpl. rewrite length_map, length_seq, length_map.
  unfold Convenience.norm_axis1. rewrite length_map. exact Hr.
Qed.

(** X19.  Whatever the flags, [gram_schmidt] returns an array of the shape
    of its input: every row (or column) of the input gives one of the
    result, of the same length. *)
Theorem gram_schmidt_shape (X : ndarray C) (row_vecs norm : bool) :
  wf X ->
  has_shape (nrows X) (ncols X) (Convenience.gram_schmidt X row_vecs norm).
Proof.
  intros HX. destruct row_vecs.
  - now apply gram_schmidt_rows_shape.
  - pose proof (transpose_shape X) as (Hr & Hc & Hwf).
    pose proof (gram_schmidt_rows_shape norm Hwf) as Hs.
    change (Convenience.gram_schmidt X false norm)
      with (transpose (Convenience.gram_schmidt (transpose X) true norm)).
    pose proof (transpose_shape
                  (Convenience.gram_schmidt (transpose X) true norm)) as Ht.
    destruct Hs as (Hsr & Hsc & _). rewrite Hsr, Hsc, Hr, Hc in Ht.
    exact Ht.
Qed.

End GramSchmidtShape.

(** ** Diagonal arrays and linear combinations *)

Section DiagLaws.
Context {C : Type} `{Num C}.
Hypothesis Cring : ring_theory czero cone cadd cmul csub copp eq.
Add Ring Cr_diag : Cring.

Lemma dot_comm (u v : list C) : dot u v = dot v u.
Proof.
  revert v; induction u as [|x u IH]; intros [|y v]; try reflexivity.
  rewrite !(dot_cons Cring), IH. ring.
Qed.

Lemma dot_vsub_l (u v b : list C) :
  length u = length b -> length v = length b ->
  dot (vsub u v) b = csub (dot u b) (dot v b).
Proof.
  revert v b; induction u as [|x u IH]; intros [|y v] [|z b] Hu Hv;
    simpl in *; try lia.
  - unfold dot, np_sum; simpl. ring.
  - unfold vsub; simpl. rewrite !(dot_cons Cring). fold (vsub u v).
    rewrite IH by lia. ring.
Qed.

Lemma weighted_sum_dot (cs ds : list C) : weighted_sum cs ds = dot cs ds.
Proof.
  revert ds; induction cs as [|c cs IH]; intros [|d ds]; try reflexivity.
  simpl. now rewrite (dot_cons Cring), IH.
Qed.

(** Against a row that is [a] at position [i] and zero elsewhere, the inner
    product picks [a * v_i]. *)
Lemma dot_delta_row_from (a : C) (i : nat) (v : list C) (s : nat) :
  dot (map (fun m => if i =? m then a else czero) (seq s (length v))) v
  = if (s <=? i) && (i <? s + length v)
    then cmul a (nth (i - s) v czero) else czero.
Proof.
  revert s; induction v as [|x v IH]; intros s.
  - unfold dot, np_sum; simpl.
    destruct (s <=? i), (i <? s + 0), (i - s); simpl; ring.
  - cbn [length seq map]. rewrite (dot_cons Cring), IH.
    destruct (Nat.eqb_spec i s) as [->|Hne].
    + rewrite Nat.leb_refl, Nat.sub_diag.
      replace (S s <=? s) with false by (symmetry; apply Nat.leb_gt; lia).
      replace (s <? s + S (length v)) with true
        by (symmetry; apply Nat.ltb_lt; lia).
      simpl. ring.
    + destruct (Nat.leb_spec s i) as [Hle|Hgt].
      * replace (S s <=? i) with true by (symmetry; apply Nat.leb_le; lia).
        replace (i <? S s + length v) with (i <? s + S (length v))
          by (f_equal; lia).
        simpl. destruct (i <? s + S (length v)).
        -- replace (i - s) with (S (i - S s)) by lia. simpl. ring.
        -- ring.
      * replace (S s <=? i) with false by (symmetry; apply Nat.leb_gt; lia).
        simpl. ring.
Qed.

Lemma dot_delta_row (a : C) (i k : nat) (v : list C) :
  length v = k -> i < k ->
  dot (map (fun m => if i =? m then a else czero) (seq 0 k)) v
  = cmul a (nth i v czero).
Proof.
  intros <- Hi. rewrite dot_delta_row_from. simpl. rewrite Nat.sub_0_r.
  now replace (i <? length v) with true by (symmetry; apply Nat.ltb_lt; lia).
Qed.

(** Row [a] of [np.diag(cs) @ Y] is row [a] of [Y] scaled by [cs[a]]. *)
Lemma row_diag_matmul (k c : nat) (cs : list C) (Y : ndarray C) (a : nat) :
  has_shape k c Y -> length cs = k -> a < k ->
  row a (matmul (np_diag cs) Y) = vscale (nth a cs czero) (row a Y).
Proof.
  intros HY Hcs Ha. pose proof (row_length HY Ha) as Hlen.
  destruct HY as (Hk & Hc & _).
  unfold row at 1, matmul, np_diag; cbn [rows ncols]. rewrite Hcs, Hc.
  rewrite (nth_map_lt _ _ []) by (now rewrite length_map, length_seq).
  rewrite nth_map_seq by exact Ha.
  rewrite <- (map_nth_seq (row a Y) czero) at 1. rewrite Hlen.
  unfold vscale. rewrite map_map. apply map_ext. intros j.
  rewrite dot_delta_row; auto.
  - now rewrite nth_col.
  - now rewrite col_length.
Qed.

Lemma nth_lincomb (c : nat) (cs : list C) (bs : list (list C)) (j : nat) :
  Forall (fun b => length b = c) bs -> j < c ->
  nth j (lincomb c cs bs) czero
  = weighted_sum cs (map (fun b => nth j b czero) bs).
Proof.
  intros Hbs Hj. revert cs; induction Hbs as [|b bs Hb Hbs IH]; intros [|x cs];
    simpl; try apply nth_zeros.
  unfold vadd. rewrite nth_map2.
  - rewrite IH. unfold vscale. now rewrite (nth_map_lt _ _ czero) by lia.
  - rewrite vscale_length. lia.
  - rewrite lincomb_length by exact Hbs. lia.
Qed.

(** The column sums of [np.diag(cs) @ Y] are the linear combination of the
    rows of [Y] with coefficients [cs]. *)
Lemma sum_axis0_diag_matmul (k c : nat) (cs : list C) (Y : ndarray C) :
  has_shape k c Y -> length cs = k ->
  sum_axis0 (matmul (np_diag cs) Y) = lincomb c cs (rows Y).
Proof.
  intros HY Hcs. pose proof HY as (Hk & Hc & Hwf).
  unfold wf in Hwf. rewrite Hc in Hwf.
  apply (nth_ext _ _ czero czero).
  - unfold sum_axis0. rewrite length_map, length_seq. cbn [matmul ncols].
    now rewrite lincomb_length.
  - intros j Hj. unfold sum_axis0 in *. rewrite length_map, length_seq in Hj.
    cbn [matmul ncols] in Hj. rewrite Hc in Hj.
    rewrite nth_map_seq by (cbn [matmul ncols]; lia).
    rewrite nth_lincomb by assumption.
    fold (col j Y). rewrite weighted_sum_dot.
    rewrite (@dot_bigsum _ _ k) by (auto; now rewrite col_length).
    unfold bigsum. f_equal.
    unfold col at 1. rewrite <- (map_nth_seq (rows (matmul (np_diag cs) Y)) []).
    fold (nrows (matmul (np_diag cs) Y)).
    replace (nrows (matmul (np_diag cs) Y)) with k
      by (unfold nrows, matmul, np_diag; cbn [rows];
          now rewrite !length_map, length_seq).
    rewrite map_map. apply map_ext_in. intros a Ha. apply in_seq in Ha.
    fold (row a (matmul (np_diag cs) Y)).
    rewrite row_diag_matmul with (k := k) (c := c) by (auto; lia).
    unfold vscale. rewrite (nth_map_lt _ _ czero).
    + now rewrite nth_col.
    + rewrite (row_length HY); lia.
Qed.

End DiagLaws.

(** ** Gram-Schmidt in real arithmetic *)

Section GramSchmidtReal.
Open Scope R_scope.

Lemma gram_schmidt_is_loop (X : ndarray R) :
  Convenience.gram_schmidt X true false = gram_schmidt_loop X (nrows X - 1).
Proof. reflexivity. Qed.

Lemma np_sum_squares (r : list R) :
  np_sum (map (fun x => cmul (cconj x) x) r) = dot r r.
Proof.
  unfold dot, np_multiply. f_equal.
  induction r as [|x r IH]; cbn [map map2]; [reflexivity|].
  f_equal. exact IH.
Qed.

Lemma norm_axis1_length (Y : ndarray R) :
  length (Convenience.norm_axis1 Y) = nrows Y.
Proof. unfold Convenience.norm_axis1. apply length_map. Qed.

Lemma nth_norm_axis1 (Y : ndarray R) (a : nat) :
  (a < nrows Y)%nat ->
  nth a (Convenience.norm_axis1 Y) 0 = sqrt (dot (row a Y) (row a Y)).
Proof.
  intros Ha. unfold Convenience.norm_axis1.
  rewrite (nth_map_lt _ _ []) by exact Ha.
  fold (row a Y). now rewrite np_sum_squares.
Qed.

Lemma projection_coefficients_length (k c : nat) (x : list R) (Y : ndarray R) :
  has_shape k c Y -> length (projection_coefficients x Y) = k.
Proof.
  intros (Hk & _ & _). unfold projection_coefficients.
  rewrite map2_length.
  - unfold vecmat. rewrite length_map, length_seq. exact Hk.
  - unfold vecmat, Convenience.square.
    now rewrite !length_map, length_seq, norm_axis1_length.
Qed.

Lemma nth_projection_coefficients (k c : nat) (x : list R) (Y : ndarray R)
    (a : nat) :
  has_shape k c Y -> (a < k)%nat ->
  nth a (projection_coefficients x Y) 0
  = dot x (row a Y) / dot (row a Y) (row a Y).
Proof.
  intros HY Ha. pose proof HY as (Hk & _ & _).
  unfold projection_coefficients.
  rewrite nth_map2.
  - cbn [cdiv R_Inexact]. f_equal.
    + unfold vecmat. cbn [transpose ncols]. rewrite Hk.
      rewrite nth_map_seq by exact Ha.
      now rewrite (col_transpose HY Ha).
    + unfold Convenience.square.
      rewrite (nth_map_lt _ _ 0) by (rewrite norm_axis1_length; lia).
      rewrite nth_norm_axis1 by lia. cbn [cmul R_Num].
      apply sqrt_sqrt, dot_self_nonneg.
  - unfold vecmat. cbn [transpose ncols]. rewrite length_map, length_seq. lia.
  - unfold Convenience.square. rewrite length_map, norm_axis1_length. lia.
Qed.

(** The row that one pass of the loop appends is orthogonal to every row
    already there. *)
Lemma gram_schmidt_step_orthogonal (k c : nat) (x : list R) (Y : ndarray R)
    (b : nat) :
  has_shape k c Y -> length x = c -> pairwise_orthogonal Y ->
  (b < k)%nat -> dot (row b Y) (row b Y) <> 0 ->
  dot (vsub x (sum_axis0 (matmul (np_diag (projection_coefficients x Y)) Y)))
      (row b Y) = 0.
Proof.
  intros HY Hx Horth Hb Hnz.
  pose proof (projection_coefficients_length x HY) as Hcs.
  pose proof (row_length HY Hb) as Hlb.
  pose proof HY as (Hk & Hc & Hwf). unfold wf in Hwf. rewrite Hc in Hwf.
  rewrite (sum_axis0_diag_matmul R_ring _ HY Hcs).
  rewrite (dot_vsub_l R_ring)
    by (rewrite ?lincomb_length; auto; congruence).
  rewrite (dot_lincomb R_ring) by assumption.
  rewrite (weighted_sum_dot R_ring).
  rewrite (dot_comm R_ring (projection_coefficients x Y)).
  rewrite <- (map_nth_seq (rows Y) []) at 1. rewrite map_map.
  fold (nrows Y). rewrite Hk.
  rewrite (map_ext_in _
             (fun a => if (b =? a)%nat then dot (row b Y) (row b Y) else 0)).
  2:{ intros a Ha. apply in_seq in Ha. fold (row a Y).
      destruct (Nat.eqb_spec b a) as [->|Hne]; [reflexivity|].
      apply Horth; rewrite ?Hk; lia. }
  rewrite (dot_delta_row R_ring) by assumption.
  change (@czero R R_Num) with 0.
  rewrite (nth_projection_coefficients x HY Hb).
  cbn [csub cmul R_Num]. field. exact Hnz.
Qed.

Lemma row_vstack_row_old (Y : ndarray R) (v : list R) (a : nat) :
  (a < nrows Y)%nat -> row a (vstack_row Y v) = row a Y.
Proof.
  intros Ha. unfold row, vstack_row; simpl. now apply app_nth1.
Qed.

Lemma row_vstack_row_new (Y : ndarray R) (v : list R) :
  row (nrows Y) (vstack_row Y v) = v.
Proof.
  unfold row, vstack_row, nrows; simpl.
  rewrite app_nth2 by lia. now rewrite Nat.sub_diag.
Qed.

Lemma gram_schmidt_loop_S (X : ndarray R) (n : nat) :
  gram_schmidt_loop X (S n)
  = let Y := gram_schmidt_loop X n in
    vstack_row Y
      (vsub (row (S n) X)
            (sum_axis0
               (matmul (np_diag (projection_coefficients (row (S n) X) Y)) Y))).
Proof.
  unfold gram_schmidt_loop. rewrite seq_S, fold_left_app. reflexivity.
Qed.

(** After [n] passes the array has [n + 1] rows, and they are orthogonal
    to each other unless one of them is zero. *)
Lemma gram_schmidt_loop_orthogonal (X : ndarray R) (n : nat) :
  wf X -> (n < nrows X)%nat ->
  has_shape (S n) (ncols X) (gram_schmidt_loop X n) /\
  ((forall a, (a < S n)%nat ->
      dot (row a (gram_schmidt_loop X n)) (row a (gram_schmidt_loop X n)) <> 0) ->
   pairwise_orthogonal (gram_schmidt_loop X n)).
Proof.
  intros HX. induction n as [|n IH]; intros Hn.
  - assert (H0 : has_shape 1 (ncols X) (gram_schmidt_loop X 0)).
    { unfold gram_schmidt_loop, has_shape, nrows, wf, first_row_slice in *.
      cbn [seq fold_left rows ncols].
      destruct HX as [|x l Hx _]; cbn in *; [lia|].
      repeat split; auto. }
    split; [exact H0|]. intros _ a b Ha Hb Hab.
    destruct H0 as (Hr & _). rewrite Hr in Ha, Hb. lia.
  - destruct IH as [Hs Horth]; [lia|].
    rewrite gram_schmidt_loop_S. cbv zeta.
    set (Y := gram_schmidt_loop X n) in *.
    set (x := row (S n) X).
    set (y := vsub x _).
    assert (Hx : length x = ncols X).
    { apply row_length with (r := nrows X); [repeat split; auto | exact Hn]. }
    assert (Hy : length y = ncols X).
    { unfold y, vsub. rewrite map2_length; auto.
      rewrite sum_axis0_length. cbn [matmul ncols].
      destruct Hs as (_ & -> & _). exact Hx. }
    pose proof Hs as (Hk & _ & _).
    split; [now apply vstack_row_shape|].
    intros Hnz.
    assert (HnzY : forall a, (a < S n)%nat -> dot (row a Y) (row a Y) <> 0).
    { intros a Ha. specialize (Hnz a).
      rewrite row_vstack_row_old in Hnz by (rewrite Hk; exact Ha).
      apply Hnz. lia. }
    specialize (Horth HnzY).
    assert (Hnew : forall b, (b < S n)%nat -> dot y (row b Y) = 0).
    { intros b Hb.
      apply (@gram_schmidt_step_orthogonal (S n) (ncols X)); auto. }
    intros a b Ha Hb Hab.
    assert (Hrows : nrows (vstack_row Y y) = S (S n)).
    { unfold nrows, vstack_row in *; simpl. rewrite length_app; simpl. lia. }
    rewrite Hrows in Ha, Hb.
    destruct (Nat.eq_dec a (S n)) as [->|Ha'];
      destruct (Nat.eq_dec b (S n)) as [->|Hb']; try lia.
    + rewrite <- Hk at 1. rewrite row_vstack_row_new.
      rewrite row_vstack_row_old by (rewrite Hk; lia).
      apply Hnew. lia.
    + rewrite <- Hk at 1. rewrite row_vstack_row_new.
      rewrite row_vstack_row_old by (rewrite Hk; lia).
      rewrite (dot_comm R_ring). apply Hnew. lia.
    + rewrite !row_vstack_row_old by (rewrite Hk; lia).
      apply Horth; rewrite ?Hk; lia.
Qed.

Lemma dot_vscale_vscale (p q : R) (u v : list R) :
  dot (vscale p u) (vscale q v) = p * q * dot u v.
Proof.
  rewrite (dot_vscale_l R_ring), (dot_comm R_ring), (dot_vscale_l R_ring).
  rewrite (dot_comm R_ring). cbn [cmul R_Num]. ring.
Qed.

(** X20.  In real arithmetic, and unless the orthogonalisation produces a
    zero row, [gram_schmidt] on row vectors returns rows that are
    orthogonal to each other, and with [norm=True] rows that are
    orthonormal. *)
Theorem gram_schmidt_orthogonal (X : ndarray R) :
  wf X ->
  (forall a, (a < nrows X)%nat ->
     dot (row a (Convenience.gram_schmidt X true false))
         (row a (Convenience.gram_schmidt X true false)) <> 0) ->
  pairwise_orthogonal (Convenience.gram_schmidt X true false) /\
  dot_orthonormal (Convenience.gram_schmidt X true true).
Proof.
  intros HX Hnz.
  pose proof (gram_schmidt_rows_shape false HX) as HY.
  rewrite gram_schmidt_norm_step.
  set (Y := Convenience.gram_schmidt X true false) in *.
  pose proof HY as (Hr & Hc & _).
  assert (Horth : pairwise_orthogonal Y).
  { destruct (Nat.eq_dec (nrows X) 0) as [H0|H0].
    - intros a b Ha. rewrite Hr in Ha. lia.
    - unfold Y in *. rewrite gram_schmidt_is_loop in *.
      destruct (@gram_schmidt_loop_orthogonal X (nrows X - 1) HX) as [_ Ho];
        [lia|].
      apply Ho. intros a Ha. apply Hnz. lia. }
  split; [exact Horth|].
  set (ns := map (cdiv cone) (Convenience.norm_axis1 Y)).
  assert (Hns : length ns = nrows X).
  { unfold ns. now rewrite length_map, norm_axis1_length. }
  assert (Hrow : forall a, (a < nrows X)%nat ->
            row a (matmul (np_diag ns) Y)
            = vscale (1 / sqrt (dot (row a Y) (row a Y))) (row a Y)).
  { intros a Ha. rewrite (row_diag_matmul R_ring _ HY Hns Ha). f_equal.
    unfold ns. rewrite (nth_map_lt _ _ 0) by (rewrite norm_axis1_length; lia).
    now rewrite nth_norm_axis1 by lia. }
  intros a b Ha Hb.
  assert (Hrows : nrows (matmul (np_diag ns) Y) = nrows X).
  { unfold nrows, matmul, np_diag; cbn [rows].
    now rewrite !length_map, length_seq. }
  rewrite Hrows in Ha, Hb.
  rewrite (Hrow a Ha), (Hrow b Hb), dot_vscale_vscale.
  destruct (Nat.eqb_spec a b) as [->|Hab].
  - set (d := dot (row b Y) (row b Y)).
    assert (Hd : 0 < d).
    { pose proof (dot_self_nonneg (row b Y)). pose proof (Hnz b Hb).
      unfold d. lra. }
    assert (Hs : sqrt d * sqrt d = d) by (apply sqrt_sqrt; lra).
    assert (Hs0 : sqrt d <> 0).
    { intros E. rewrite E in Hs. lra. }
    cbn [cone R_Num].
    replace (1 / sqrt d * (1 / sqrt d) * d)
      with (d / (sqrt d * sqrt d)) by (field; exact Hs0).
    rewrite Hs. field. lra.
  - rewrite (Horth a b) by (rewrite ?Hr; auto).
    cbn [czero R_Num]. ring.
Qed.

End GramSchmidtReal.

(** ** Complex numbers over the reals *)

Section ComplexLaws.
Open Scope R_scope.

Lemma Cx_ring :
  ring_theory (czero (C := Cx.t)) cone cadd cmul csub copp eq.
Proof.
  constructor; intros; repeat match goal with x : Cx.t |- _ => destruct x end;
    unfold cadd, cmul, csub, copp, czero, cone, Cx_Num,
      Cx.add, Cx.mul, Cx.sub, Cx.opp, fst, snd;
    f_equal; ring.
Qed.

Lemma Cx_conj_involutive (x : Cx.t) : cconj (cconj x) = x.
Proof.
  destruct x as [a b]. unfold cconj, Cx_Inexact, Cx.conj; simpl.
  f_equal. ring.
Qed.

Lemma Cx_conj_zero : cconj (czero (C := Cx.t)) = czero.
Proof.
  unfold cconj, czero, Cx_Inexact, Cx_Num, Cx.conj; simpl. f_equal. ring.
Qed.

Lemma Cx_conj_add (x y : Cx.t) : cconj (cadd x y) = cadd (cconj x) (cconj y).
Proof.
  destruct x as [a b], y as [c d].
  unfold cconj, cadd, Cx_Inexact, Cx_Num, Cx.conj, Cx.add; simpl.
  f_equal. ring.
Qed.

Lemma Cx_conj_mul (x y : Cx.t) : cconj (cmul x y) = cmul (cconj x) (cconj y).
Proof.
  destruct x as [a b], y as [c d].
  unfold cconj, cmul, Cx_Inexact, Cx_Num, Cx.conj, Cx.mul; simpl.
  f_equal; ring.
Qed.

Lemma Cx_i_unit : cmul Cx.i (cconj Cx.i) = cone.
Proof.
  unfold cmul, cconj, cone, Cx_Inexact, Cx_Num, Cx.conj, Cx.mul, Cx.i; simpl.
  f_equal; ring.
Qed.

End ComplexLaws.

(** ** The further properties on sample arrays *)

Section MoreSamples.
Import Sample.

Lemma expm_vjp_matmul_transpose_witness :
  Expm._expm_vjp E M G = matmul G (transpose E).
Proof.
  apply (@expm_vjp_matmul_transpose Z _ 2 E M G); shape.
Defined.

Lemma expm_fastgrad_vjp_no_controls_witness :
  Expm._expm_fastgrad_vjp E M [] G = zeros2 2 2.
Proof.
  apply (@expm_fastgrad_vjp_no_controls Z Z_Num Zth 2 E M G); shape.
Defined.

Lemma expm_fastgrad_vjp_permutation_witness :
  Expm._expm_fastgrad_vjp E M [H1; H2] G
  = Expm._expm_fastgrad_vjp E M [H2; H1] G.
Proof.
  apply (@expm_fastgrad_vjp_permutation Z Z_Num Zth 2 E M G [H1; H2] [H2; H1]);
    [shape | shape | shape | apply perm_swap].
Defined.

Lemma expm_fastgrad_vjp_sum_of_products_witness :
  entry (Expm._expm_fastgrad_vjp E M [H1; H2] G) 0 1
  = np_sum (map (fun Hk => entry (matmul G (matmul Hk E)) 0 1) [H1; H2]).
Proof.
  apply (@expm_fastgrad_vjp_sum_of_products Z Z_Num Zth 2 E M G [H1; H2]);
    try shape; lia.
Defined.

Lemma matmuls_square_chain_witness :
  match Convenience.matmuls [E; G] with
  | None => [E; G] = []
  | Some p => [E; G] <> [] /\ has_shape 2 2 p
  end.
Proof.
  apply (@matmuls_square_chain Z Z_Num 2 [E; G]); shape.
Defined.

Lemma matmuls_app_witness :
  Convenience.matmuls ([E] ++ [G; H1]) = Some (matmul E (matmul G H1)).
Proof.
  apply (@matmuls_app Z Z_Num Zth 2 [E] [G; H1] E (matmul G H1));
    try shape; reflexivity.
Defined.

Lemma commutator_self_witness : Convenience.commutator E E = zeros2 2 2.
Proof.
  apply (@commutator_self Z Z_Num Zth 2 E); shape.
Defined.

Lemma project_keeps_basis_products_witness :
  dot (Convenience.project x swap_basis) (row 0 swap_basis)
  = dot x (row 0 swap_basis).
Proof.
  apply (@project_keeps_basis_products Z Z_Num Zth x swap_basis 0).
  - shape.
  - exact swap_basis_orthonormal.
  - reflexivity.
  - unfold nrows; simpl; lia.
Defined.

Lemma project_idempotent_witness :
  Convenience.project (Convenience.project x swap_basis) swap_basis
  = Convenience.project x swap_basis.
Proof.
  apply (@project_idempotent Z Z_Num Zth x swap_basis).
  - shape.
  - exact swap_basis_orthonormal.
  - reflexivity.
Defined.

Lemma krons_shape_witness :
  match Convenience.krons [E; wide] with
  | None => [E; wide] = []
  | Some k => [E; wide] <> [] /\ has_shape 4 6 k
  end.
Proof.
  apply (@krons_shape Z _ [E; wide]). shape.
Defined.

Lemma krons_pair_entry_witness :
  exists K, Convenience.krons [E; wide] = Some K /\
    entry K (1 * 2 + 1) (0 * 3 + 2) = cmul (entry E 1 0) (entry wide 1 2).
Proof.
  apply (@krons_pair_entry Z _ 2 2 2 3 E wide 1 0 1 2); try shape; lia.
Defined.

Lemma conjugate_transpose_involutive_witness :
  (wf Zc ->
   Convenience.conjugate_transpose (Convenience.conjugate_transpose Zc) = Zc) /\
  (Forall wf (items stack_c) ->
   Convenience.conjugate_transpose_stack
     (Convenience.conjugate_transpose_stack stack_c) = stack_c).
Proof.
  apply (@conjugate_transpose_involutive Cx.t _ _ Cx_conj_involutive Zc stack_c).
Defined.

Lemma conjugate_transpose_matmul_witness :
  Convenience.conjugate_transpose (matmul Zc Wc)
  = matmul (Convenience.conjugate_transpose Wc) (Convenience.conjugate_transpose Zc).
Proof.
  apply (@conjugate_transpose_matmul Cx.t Cx_Num Cx_Inexact Cx_ring
           Cx_conj_zero Cx_conj_add Cx_conj_mul 2 2 1 Zc Wc); shape.
Defined.

Lemma rms_norm_phase_invariant_witness :
  Convenience.rms_norm (vscale Cx.i vc) = Convenience.rms_norm vc.
Proof.
  apply (@rms_norm_phase_invariant Cx.t Cx_Num Cx_Inexact Cx_ring Cx_conj_mul
           Cx.i vc).
  exact Cx_i_unit.
Defined.

Lemma rms_norm_zeros_witness :
  Convenience.rms_norm (zeros (C := R) 3) = 0%R.
Proof.
  apply (rms_norm_zeros (n := 3)). lia.
Defined.

Lemma rms_norm_scale_witness :
  Convenience.rms_norm (vscale (-2)%R [3; 4]%R)
  = (Rabs (-2) * Convenience.rms_norm [3; 4])%R.
Proof.
  apply (@rms_norm_scale (-2)%R [3; 4]%R). discriminate.
Defined.

Lemma column_vector_list_round_trip_witness :
  bind (Convenience.column_vector_list_to_matrix columns)
       Convenience.matrix_to_column_vector_list
  = Some columns.
Proof.
  apply (@column_vector_list_round_trip Z _ 2 columns).
  - lia.
  - discriminate.
  - reflexivity.
  - repeat constructor.
Defined.

Lemma gram_schmidt_shape_witness :
  has_shape (nrows X) (ncols X) (Convenience.gram_schmidt X false true).
Proof.
  apply (@gram_schmidt_shape R _ _ X false true). shape.
Defined.

Lemma sample_rows_nonzero :
  forall a, a < nrows X ->
    dot (row a (Convenience.gram_schmidt X true false))
        (row a (Convenience.gram_schmidt X true false)) <> 0%R.
Proof.
  intros a Ha. unfold X in *. rewrite gram_schmidt_scenario_raw.
  unfold nrows in Ha; simpl in Ha.
  destruct a as [|[|a]]; try lia;
    cbn -[Rplus Rmult IZR]; lra.
Defined.

Lemma gram_schmidt_orthogonal_witness :
  pairwise_orthogonal (Convenience.gram_schmidt X true false) /\
  dot_orthonormal (Convenience.gram_schmidt X true true).
Proof.
  apply (@gram_schmidt_orthogonal X); [shape | exact sample_rows_nonzero].
Defined.

End MoreSamples.

(** ** Gram-Schmidt: the first row, dtype by dtype *)

Section GramSchmidtFirstRowDtype.
Import Float64.





End GramSchmidtFirstRowDtype.
